(** * State hydration and request-scoped timing: a shallow embedding

    The development follows two source modules:
    - [src/server/utils/TimingUtils.js]: the registry of active timer spans
      ([activeTimers]) with [safeConsoleTime], [safeConsoleTimeEnd] and
      [safeTimedExecution];
    - [src/app/utils/steemApi.js]: [callBridge], [parsePath], [loadPosts],
      [loadThread] and the orchestrator [getStateAsync].

    JavaScript strings are modelled as [string]; [null] and [undefined]
    are [None].  An object that arrives as parsed data is a finite map
    [gmap string _]; an object the program fills by assignment under
    computed keys is a [Js.Obj], which tells the own properties from the
    prototype that an assignment to "__proto__" installs.  Code that
    reads the clock, draws random numbers, logs to the console, places a
    backend call or mutates the module-level registry runs in the monad
    [M] over an explicit [World]. *)

From Stdlib Require Import Ascii String DecimalString.
From stdpp Require Import gmap strings list fin_maps.

Local Open Scope string_scope.

(** ** JavaScript string primitives used by the sources *)

Module Js.

(** [s[0] == c] for a one-character literal [c]. *)
Definition starts_with (c : ascii) (s : string) : bool :=
  match s with
  | EmptyString => false
  | String d _ => Ascii.eqb d c
  end.

(** [s.slice(1)], also [s.substring(1, s.length)]. *)
Definition slice1 (s : string) : string :=
  match s with
  | EmptyString => EmptyString
  | String _ r => r
  end.

(** [s[s.length - 1] == c] *)
Fixpoint ends_with (c : ascii) (s : string) : bool :=
  match s with
  | EmptyString => false
  | String d EmptyString => Ascii.eqb d c
  | String _ r => ends_with c r
  end.

(** [s.substring(0, s.length - 1)] *)
Fixpoint drop_last (s : string) : string :=
  match s with
  | EmptyString => EmptyString
  | String _ EmptyString => EmptyString
  | String d r => String d (drop_last r)
  end.

(** [s.split(sep)] for a one-character separator: never empty, and the
    empty string splits into one empty segment. *)
Fixpoint split (sep : ascii) (s : string) : list string :=
  match s with
  | EmptyString => [EmptyString]
  | String c r =>
      if Ascii.eqb c sep then EmptyString :: split sep r
      else match split sep r with
           | [] => [String c EmptyString]
           | p :: ps => String c p :: ps
           end
  end.

(** Truthiness of a value that is a string, [null] or [undefined]. *)
Definition truthy (o : option string) : bool :=
  match o with
  | Some s => negb (String.eqb s "")
  | None => false
  end.

(** A value interpolated in a template literal. *)
Definition interp (o : option string) : string :=
  match o with
  | Some s => s
  | None => "null"
  end.

(** [arr.includes(x)] on an array of strings. *)
Definition includes (arr : list string) (x : string) : bool :=
  existsb (String.eqb x) arr.

(** [arr.indexOf(x) == -1] *)
Definition absent (arr : list string) (x : string) : bool :=
  negb (includes arr x).

(** Decimal rendering of a non-negative integer, as [`${n}`] gives. *)
Definition decimal (n : N) : string :=
  NilZero.string_of_uint (N.to_uint n).

(** An object created by the literal [{}] and filled by assignments
    [o[k] = v] whose values are objects.  Every key names an own property
    but one: "__proto__" is the accessor inherited from
    [Object.prototype], and assigning an object to it replaces the
    prototype of [o] without adding an own property. *)
Record Obj (V : Type) := mkObj {
  (** the own properties *)
  own : gmap string V;
  (** the prototype, once an assignment to "__proto__" has replaced it *)
  proto : option V
}.
Arguments mkObj {V} own proto.
Arguments own {V} o.
Arguments proto {V} o.

(** The literal [{}]. *)
#[global] Instance obj_empty {V} : Empty (Obj V) := mkObj ∅ None.

(** [o[k] = v] for an object [v]. *)
Definition set {V} (k : string) (v : V) (o : Obj V) : Obj V :=
  if String.eqb k "__proto__" then mkObj (own o) (Some v)
  else mkObj (<[k := v]> (own o)) (proto o).

(** [o[k]] for a key the program has assigned: the own property, and
    for "__proto__" the prototype it installed.  (A key the object does
    not own is looked up by JavaScript along the prototype chain; this
    reading is not used for such keys.) *)
Definition get {V} (k : string) (o : Obj V) : option V :=
  if String.eqb k "__proto__" then proto o else own o !! k.

#[global] Instance obj_lookup {V} : Lookup string V (Obj V) := get.

End Js.

(** ** Route classification: [parsePath] of steemApi.js *)

Inductive Page := posts | thread | account.

Record PathInfo := mkPathInfo {
  page : option Page;
  tag : option string;
  sort : option string;
  key : option (string * string)
}.

Definition sorts : list string :=
  ["trending"; "promoted"; "hot"; "created"; "payout"; "payout_comments";
   "muted"].

Definition acct_tabs : list string :=
  ["blog"; "feed"; "posts"; "comments"; "replies"; "payout"].

Definition parsePath (url : string) : PathInfo :=
  (* strip off query string *)
  let url := hd "" (Js.split "?" url) in
  (* strip off leading and trailing slashes *)
  let url := if Js.starts_with "/" url then Js.slice1 url else url in
  let url := if Js.ends_with "/" url then Js.drop_last url else url in
  (* blank URL defaults to `trending` *)
  let url := if String.eqb url "" then "trending" else url in
  let part := Js.split "/" url in
  let parts := length part in
  let at_ i := nth i part "" in
  if (parts =? 1)%nat && Js.includes sorts (at_ 0%nat) then
    mkPathInfo (Some posts) (Some "") (Some (at_ 0%nat)) None
  else if (parts =? 2)%nat && Js.includes sorts (at_ 0%nat) then
    mkPathInfo (Some posts) (Some (at_ 1%nat)) (Some (at_ 0%nat)) None
  else if (parts =? 3)%nat && Js.starts_with "@" (at_ 1%nat) then
    mkPathInfo (Some thread) (Some (at_ 0%nat)) None
               (Some (at_ 1%nat, at_ 2%nat))
  else if (parts =? 1)%nat && Js.starts_with "@" (at_ 0%nat) then
    mkPathInfo (Some account) (Some (at_ 0%nat)) (Some "blog") None
  else if (parts =? 2)%nat && Js.starts_with "@" (at_ 0%nat) then
    if Js.includes acct_tabs (at_ 1%nat) then
      mkPathInfo (Some account) (Some (at_ 0%nat)) (Some (at_ 1%nat)) None
    else
      (* settings, followers, notifications, etc (no-op) *)
      mkPathInfo None (Some (at_ 0%nat)) None None
  else
    (* no-op URL *)
    mkPathInfo None None None None.

(** ** Backend records and the bridge RPC surface *)

(** The [err] handed to the callback of [api.call]. *)
Record JsError := mkError {
  name : string;
  message : string
}.

(** A post or comment payload; [author] and [permlink] form its key. *)
Record Post := mkPost {
  author : string;
  permlink : string;
  body : string
}.

(** A profile as [get_profile] returns it; [profile['name']] may be
    missing or empty. *)
Record Profile := mkProfile {
  profile_name : option string;
  about : string
}.

(** The calls this code places through [callBridge], with their
    parameter objects. *)
Inductive BridgeCall :=
  | get_ranked_posts (sort tag : string) (observer : option string)
  | get_account_posts (sort account : string) (observer : option string)
  | get_discussion (author permlink : string)
  | get_community (name : string) (observer : option string)
  | get_profile (account : string)
  | get_trending_topics (limit : N).

(** The shape of the [data] each call resolves with.  The metadata of a
    community is an object this code only stores; it is kept opaque. *)
Definition Reply (c : BridgeCall) : Type :=
  match c with
  | get_ranked_posts _ _ _ => list Post
  | get_account_posts _ _ _ => list Post
  | get_discussion _ _ => gmap string Post
  | get_community _ _ => string
  | get_profile _ => option Profile
  | get_trending_topics _ => list string
  end.

(** ** The process: registry, console, endpoint-reset hook *)

(** One look at the ambient sources: [Date.now()], the suffix
    [Math.random().toString(36).substr(2, 9)] and [process.hrtime()]. *)
Record Reading := mkReading {
  date_now : N;
  math_random : string;
  hrtime : N * N
}.

Inductive ConsoleEvent :=
  | console_log_GSA (url : string) (observer : option string) (ssr : bool)
  | console_time (label : string)
  | console_timeEnd (label : string)
  | console_warn_timer (label : string)
  | console_error_callBridge (call : BridgeCall) (err : JsError)
  | console_error_getStateAsync (error : JsError)
      (requestId : option string) (url : string).

Record World := mkWorld {
  (** [const activeTimers = new Map()] *)
  activeTimers : gmap string (N * N);
  (** how many ambient readings have been consumed *)
  ticks : nat;
  (** how many times [changeRPCNodeToDefault()] has been invoked *)
  rpc_resets : nat;
  (** console output, newest first *)
  console : list ConsoleEvent;
  (** the calls handed to [api.call], newest first *)
  requests : list BridgeCall
}.

(** The world at process start. *)
Definition boot : World := mkWorld ∅ 0 0 [] [].

(** Outcome of a computation: a value, or a thrown error (for an [async]
    function: the promise resolved or rejected). *)
Inductive Res (A : Type) :=
  | Ok (a : A)
  | Throw (e : JsError).
Arguments Ok {A} a.
Arguments Throw {A} e.

Definition M (A : Type) : Type := World → World * Res A.

Definition ret {A} (a : A) : M A := fun w => (w, Ok a).

Definition throw {A} (e : JsError) : M A := fun w => (w, Throw e).

Definition bind {A B} (m : M A) (f : A → M B) : M B :=
  fun w =>
    match m w with
    | (w', Ok a) => f a w'
    | (w', Throw e) => (w', Throw e)
    end.

(** [try { m } catch (e) { h e }] *)
Definition try_catch {A} (m : M A) (h : JsError → M A) : M A :=
  fun w =>
    match m w with
    | (w', Ok a) => (w', Ok a)
    | (w', Throw e) => h e w'
    end.

(** [try { m } finally { f }], for a finaliser that is itself a
    computation; should the finaliser throw, its error wins. *)
Definition try_finally {A} (m : M A) (f : M unit) : M A :=
  fun w =>
    match m w with
    | (w', r) =>
        match f w' with
        | (w'', Ok _) => (w'', r)
        | (w'', Throw e) => (w'', Throw e)
        end
    end.

Declare Scope js_scope.
Delimit Scope js_scope with js.
Notation "'let*' x ':=' m 'in' k" := (bind m (fun x => k))
  (at level 10, x name, m at level 100, k at level 200) : js_scope.
Notation "'run' m 'in' k" := (bind m (fun _ => k))
  (at level 10, m at level 100, k at level 200) : js_scope.

Definition emit (ev : ConsoleEvent) : M unit :=
  fun w => (mkWorld (activeTimers w) (ticks w) (rpc_resets w)
                    (ev :: console w) (requests w), Ok tt).

(** Modelled from the spec: the endpoint-reset hook imported from
    [app/utils/RPCNode], a zero-argument callback that reconfigures the
    backend endpoint; the process records how often it was invoked. *)
Definition changeRPCNodeToDefault : M unit :=
  fun w => (mkWorld (activeTimers w) (ticks w) (S (rpc_resets w))
                    (console w) (requests w), Ok tt).

(** [api.call(pre + method, params, ...)]: the call leaves the process;
    what comes back is the transport's business. *)
Definition api_send (c : BridgeCall) : M unit :=
  fun w => (mkWorld (activeTimers w) (ticks w) (rpc_resets w) (console w)
                    (c :: requests w), Ok tt).

(** ** TimingUtils.js *)

Module TimingUtils.
Section Timing.
Local Open Scope js_scope.

(** [process.env.TIME_LOG === 'true'], read once at start-up. *)
Variable ENABLE_TIMING : bool.
(** What the clock and the random generator yield at each reading. *)
Variable ambient : nat → Reading.

Definition read_ambient : M Reading :=
  fun w => (mkWorld (activeTimers w) (S (ticks w)) (rpc_resets w)
                    (console w) (requests w), Ok (ambient (ticks w))).

Definition timers_has (label : string) : M bool :=
  fun w => (w, Ok (bool_decide (is_Some (activeTimers w !! label)))).

Definition timers_set (label : string) (t : N * N) : M unit :=
  fun w => (mkWorld (<[label := t]> (activeTimers w)) (ticks w)
                    (rpc_resets w) (console w) (requests w), Ok tt).

Definition timers_delete (label : string) : M unit :=
  fun w => (mkWorld (delete label (activeTimers w)) (ticks w)
                    (rpc_resets w) (console w) (requests w), Ok tt).

Definition generateUniqueLabel (baseLabel : string)
    (requestId : option string) : M string :=
  if Js.truthy requestId then
    ret (baseLabel +:+ "_" +:+ Js.interp requestId)
  else
    (* Fallback to timestamp + random for uniqueness *)
    let* r := read_ambient in
    ret (baseLabel +:+ "_" +:+ Js.decimal (date_now r) +:+ "_"
           +:+ math_random r).

Definition safeConsoleTime (label : string) (requestId : option string)
    : M (option string) :=
  if ENABLE_TIMING then
    let* uniqueLabel := generateUniqueLabel label requestId in
    let* r := read_ambient in
    run timers_set uniqueLabel (hrtime r) in
    run emit (console_time uniqueLabel) in
    ret (Some uniqueLabel)
  else ret None.

Definition safeConsoleTimeEnd (label : string)
    (requestId : option string) : M unit :=
  if ENABLE_TIMING then
    let* known := timers_has label in
    (* If it's not already a unique label, generate one *)
    let* uniqueLabel := (if known then ret label
                         else generateUniqueLabel label requestId) in
    let* found := timers_has uniqueLabel in
    if found then
      run emit (console_timeEnd uniqueLabel) in
      timers_delete uniqueLabel
    else
      emit (console_warn_timer uniqueLabel)
  else ret tt.

(** [fn] is the timed operation: between its call and its settlement
    anything may happen to the process, so it is a computation over the
    whole world. *)
Definition safeTimedExecution {A} (label : string) (fn : M A)
    (requestId : option string) : M A :=
  if negb ENABLE_TIMING then fn
  else
    let* uniqueLabel := safeConsoleTime label requestId in
    try_finally fn (safeConsoleTimeEnd (Js.interp uniqueLabel) None).

Definition getActiveTimerCount : M nat :=
  fun w => (w, Ok (size (activeTimers w))).

Definition clearAllTimers : M unit :=
  fun w => (mkWorld ∅ (ticks w) (rpc_resets w) (console w) (requests w),
            Ok tt).

End Timing.
End TimingUtils.

(** ** steemApi.js *)

(** The snapshot [getStateAsync] assembles. *)
Record State := mkState {
  accounts : gmap string string;
  community : Js.Obj string;
  content : gmap string Post;
  discussion_idx : Js.Obj (Js.Obj (list string));
  profiles : Js.Obj Profile;
  topics : option (list string)
}.

(** What [loadPosts] returns: [{ content, discussion_idx }]. *)
Record Listing := mkListing {
  listing_content : gmap string Post;
  listing_discussion_idx : Js.Obj (Js.Obj (list string))
}.

Module SteemApi.
Section Api.
Local Open Scope js_scope.

Variable ENABLE_TIMING : bool.
Variable ambient : nat → Reading.
(** The transport: what [api.call] hands to its callback for a call,
    [inl err] or [inr data]. *)
Variable api_call : ∀ c : BridgeCall, JsError + Reply c.
(** Truthiness of [ifHive(tag)], imported from [app/utils/Community]. *)
Variable ifHive : string → bool.
(** The normalization pass imported from [app/redux/stateCleaner], a
    total transform of the snapshot. *)
Variable stateCleaner : State → State.

Local Abbreviation safeConsoleTime :=
  (TimingUtils.safeConsoleTime ENABLE_TIMING ambient).
Local Abbreviation safeConsoleTimeEnd :=
  (TimingUtils.safeConsoleTimeEnd ENABLE_TIMING ambient).

Definition callBridge (c : BridgeCall) : M (Reply c) :=
  run api_send c in
  match api_call c with
  | inl err =>
      run emit (console_error_callBridge c err) in
      run (if String.eqb (message err) "Network request failed"
           then changeRPCNodeToDefault else ret tt) in
      throw err
  | inr data => ret data
  end.

Definition loadThread (account permlink : string)
    (requestId : option string) : M (gmap string Post) :=
  let author := Js.slice1 account in
  let timerLabel :=
    "timing_get_discussion_" +:+ author +:+ "_" +:+ permlink in
  run safeConsoleTime timerLabel requestId in
  let* content := callBridge (get_discussion author permlink) in
  run safeConsoleTimeEnd timerLabel requestId in
  ret content.

Definition post_key (post : Post) : string :=
  author post +:+ "/" +:+ permlink post.

(** One turn of the [for (var idx in posts)] loop.  The key holds a
    slash, so it always names an own property of [content]. *)
Definition collect_post (acc : gmap string Post * list string)
    (post : Post) : gmap string Post * list string :=
  let '(content, keys) := acc in
  let key := post_key post in
  (<[key := post]> content,
   if Js.absent keys key then (keys ++ [key])%list else keys).

Definition loadPosts (sort tag : string) (observer : option string)
    (ssr : bool) (requestId : option string) : M Listing :=
  let account :=
    if Js.starts_with "@" tag then Some (Js.slice1 tag) else None in
  let* posts :=
    (if Js.truthy account then
       let account := Js.interp account in
       let timerLabel :=
         "timing_get_account_posts_" +:+ account +:+ "_" +:+ sort in
       run safeConsoleTime timerLabel requestId in
       let* posts := callBridge (get_account_posts sort account observer) in
       run safeConsoleTimeEnd timerLabel requestId in
       ret posts
     else
       let timerLabel :=
         "timing_get_ranked_posts_" +:+ sort +:+ "_" +:+ tag in
       run safeConsoleTime timerLabel requestId in
       let* posts := callBridge (get_ranked_posts sort tag observer) in
       run safeConsoleTimeEnd timerLabel requestId in
       ret posts) in
  let '(content, keys) := fold_left collect_post posts (∅, []) in
  (* [discussion_idx[tag] = {}], then [discussion_idx[tag][sort] = keys]
     on that same object, which the first assignment made an own
     property or the prototype *)
  let discussion_idx : Js.Obj (Js.Obj (list string)) :=
    Js.set tag (Js.set sort keys ∅) ∅ in
  ret (mkListing content discussion_idx).

(** [key[i]] where [key] may be [null]. *)
Definition key_at (key : option (string * string)) (i : bool)
    : M string :=
  match key with
  | Some (k0, k1) => ret (if i then k1 else k0)
  | None =>
      throw (mkError "TypeError" "Cannot read properties of null")
  end.

(** Lines 62-79: load [content] and [discussion_idx].  [sort] and [tag]
    are strings whenever [page] is [posts] or [account]. *)
Definition load_content (p : PathInfo) (observer : option string)
    (ssr : bool) (requestId : option string) (state : State) : M State :=
  match page p with
  | Some posts | Some account =>
      let timerLabel :=
        "timing_loadPosts_" +:+ Js.interp (sort p) +:+ "_"
          +:+ Js.interp (tag p) in
      run safeConsoleTime timerLabel requestId in
      let* posts := loadPosts (Js.interp (sort p)) (Js.interp (tag p))
                      observer ssr requestId in
      run safeConsoleTimeEnd timerLabel requestId in
      ret (mkState (accounts state) (community state)
             (listing_content posts) (listing_discussion_idx posts)
             (profiles state) (topics state))
  | Some thread =>
      let* k0 := key_at (key p) false in
      let* k1 := key_at (key p) true in
      let timerLabel := "timing_loadThread_" +:+ k0 +:+ "_" +:+ k1 in
      run safeConsoleTime timerLabel requestId in
      let* posts := loadThread k0 k1 requestId in
      run safeConsoleTimeEnd timerLabel requestId in
      ret (mkState (accounts state) (community state) posts
             (discussion_idx state) (profiles state) (topics state))
  | None =>
      (* no-op *)
      ret state
  end.

(** Lines 81-92: append the [community] key; its own [try]/[catch]
    swallows every failure. *)
Definition append_community (p : PathInfo) (observer : option string)
    (requestId : option string) (state : State) : M State :=
  if Js.truthy (tag p) && ifHive (Js.interp (tag p)) then
    let tag := Js.interp (tag p) in
    try_catch
      (let timerLabel := "timing_get_community_" +:+ tag in
       run safeConsoleTime timerLabel requestId in
       let* c := callBridge (get_community tag observer) in
       run safeConsoleTimeEnd timerLabel requestId in
       ret (mkState (accounts state) (Js.set tag c (community state))
              (content state) (discussion_idx state) (profiles state)
              (topics state)))
      (fun e => ret state)
  else ret state.

(** Lines 94-98: the account whose profile is loaded. *)
Definition profile_account (p : PathInfo) : M (option string) :=
  if Js.truthy (tag p) && Js.starts_with "@" (Js.interp (tag p)) then
    ret (Some (Js.slice1 (Js.interp (tag p))))
  else
    match page p with
    | Some thread =>
        let* k0 := key_at (key p) false in ret (Some (Js.slice1 k0))
    | _ => ret None
    end.

(** Lines 94-108: for SSR, load the profile. *)
Definition load_profile (p : PathInfo) (ssr : bool)
    (requestId : option string) (state : State) : M State :=
  let* account := profile_account p in
  if ssr && Js.truthy account then
    let account := Js.interp account in
    let timerLabel := "timing_get_profile_" +:+ account in
    run safeConsoleTime timerLabel requestId in
    let* profile := callBridge (get_profile account) in
    run safeConsoleTimeEnd timerLabel requestId in
    match profile with
    | Some pr =>
        if Js.truthy (profile_name pr) then
          ret (mkState (accounts state) (community state) (content state)
                 (discussion_idx state)
                 (Js.set account pr (profiles state)) (topics state))
        else ret state
    | None => ret state
    end
  else ret state.

(** Lines 110-117: for SSR, append the [topics] key. *)
Definition append_topics (ssr : bool) (requestId : option string)
    (state : State) : M State :=
  if ssr then
    run safeConsoleTime "timing_get_trending_topics" requestId in
    let* t := callBridge (get_trending_topics 12) in
    run safeConsoleTimeEnd "timing_get_trending_topics" requestId in
    ret (mkState (accounts state) (community state) (content state)
           (discussion_idx state) (profiles state) (Some t))
  else ret state.

(** Lines 119-122. *)
Definition clean (requestId : option string) (state : State) : M State :=
  run safeConsoleTime "timing_stateCleaner" requestId in
  let cleansed := stateCleaner state in
  run safeConsoleTimeEnd "timing_stateCleaner" requestId in
  ret cleansed.

(** Lines 123-138: the [catch] block of [getStateAsync]. *)
Definition on_error (url : string) (requestId : option string)
    (error : JsError) : M State :=
  run emit (console_error_getStateAsync error requestId url) in
  run (if String.eqb (message error) "Network request failed"
       then changeRPCNodeToDefault else ret tt) in
  throw error.

(** [observer === undefined] and [observer === null] are both [None], so
    line 49 needs no counterpart. *)
Definition getStateAsync (url : string) (observer : option string)
    (ssr : bool) (requestId : option string) : M State :=
  try_catch
    (let p := parsePath url in
     run emit (console_log_GSA url observer ssr) in
     let state := mkState ∅ ∅ ∅ ∅ ∅ None in
     let* state := load_content p observer ssr requestId state in
     let* state := append_community p observer requestId state in
     let* state := load_profile p ssr requestId state in
     let* state := append_topics ssr requestId state in
     clean requestId state)
    (on_error url requestId).

End Api.
End SteemApi.

(** ** Vocabulary of the statements *)

(** [ensures m w Q]: running [m] in world [w] ends in a world and an outcome
    that satisfy [Q]. *)
Definition ensures {A} (m : M A) (w : World) (Q : World → Res A → Prop)
    : Prop :=
  Q (fst (m w)) (snd (m w)).

(** A call of the registry's interface, and a sequence of such calls run
    one after the other on the shared registry. *)
Inductive TimerCall :=
  | Start (label : string) (requestId : option string)
  | Stop (label : string) (requestId : option string).

Fixpoint run_calls (ENABLE_TIMING : bool) (ambient : nat → Reading)
    (calls : list TimerCall) : M unit :=
  match calls with
  | [] => ret tt
  | Start l r :: cs =>
      bind (TimingUtils.safeConsoleTime ENABLE_TIMING ambient l r)
           (fun _ => run_calls ENABLE_TIMING ambient cs)
  | Stop l r :: cs =>
      bind (TimingUtils.safeConsoleTimeEnd ENABLE_TIMING ambient l r)
           (fun _ => run_calls ENABLE_TIMING ambient cs)
  end.

(** The registry's size in a world, as [getActiveTimerCount] reports it. *)
Definition active_count (w : World) : Res nat :=
  snd (TimingUtils.getActiveTimerCount w).

(** Timers of several requests on one base label: a request begins its
    timer and later ends it. *)
Inductive TimerEvent :=
  | Begins (requestId : string)
  | Ends (requestId : string).

Definition call_of (label : string) (ev : TimerEvent) : TimerCall :=
  match ev with
  | Begins r => Start label (Some r)
  | Ends r => Stop label (Some r)
  end.

(** [settled begun open evs]: in [evs] every request id begins at most
    once (and is not in [begun]), ends only while open, and none is left
    open at the end. *)
Fixpoint settled (begun open : list string) (evs : list TimerEvent)
    : bool :=
  match evs with
  | [] => match open with [] => true | _ => false end
  | Begins r :: evs' =>
      negb (Js.includes begun r) && settled (r :: begun) (r :: open) evs'
  | Ends r :: evs' =>
      Js.includes open r
      && settled begun (filter (λ x, x ≠ r) open) evs'
  end.

Definition event_id (ev : TimerEvent) : string :=
  match ev with Begins r | Ends r => r end.

(** The registry holds exactly the spans of the requests in [open], each
    under [label_id]. *)
Definition holds_spans (label : string) (open : list string) (w : World)
    : Prop :=
  ∀ k, is_Some (activeTimers w !! k)
       ↔ ∃ id, id ∈ open ∧ k = label +:+ "_" +:+ id.

(** [keys] lists, without repetition, the elements of [ks] in the order
    in which each first occurs in [ks]: what stands before [k] in [keys]
    is what [ks] shows before the first [k]. *)
Definition first_seen_order (keys ks : list string) : Prop :=
  NoDup keys
  ∧ (∀ k, k ∈ keys ↔ k ∈ ks)
  ∧ ∀ l1 k l2, keys = (l1 ++ k :: l2)%list →
      ∃ p s, ks = (p ++ k :: s)%list ∧ (k ∉ p) ∧ (∀ x, x ∈ l1 ↔ x ∈ p).

(** What the backend answers to the one request [loadPosts] places. *)
Definition posts_reply (api_call : ∀ c : BridgeCall, JsError + Reply c)
    (sort tag : string) (observer : option string)
    : JsError + list Post :=
  if Js.starts_with "@" tag && negb (String.eqb (Js.slice1 tag) "") then
    api_call (get_account_posts sort (Js.slice1 tag) observer)
  else api_call (get_ranked_posts sort tag observer).

(** The primary content request [getStateAsync] places for a classified
    path, if any. *)
Definition content_call (p : PathInfo) (observer : option string)
    : option BridgeCall :=
  match page p with
  | Some posts | Some account =>
      let sort := Js.interp (sort p) in
      let tag := Js.interp (tag p) in
      if Js.starts_with "@" tag && negb (String.eqb (Js.slice1 tag) "")
      then Some (get_account_posts sort (Js.slice1 tag) observer)
      else Some (get_ranked_posts sort tag observer)
  | Some thread =>
      match key p with
      | Some (k0, k1) => Some (get_discussion (Js.slice1 k0) k1)
      | None => None
      end
  | None => None
  end.

(** A classified path as [parsePath] builds it: the fields each page kind
    relies on are set. *)
Definition path_wf (p : PathInfo) : Prop :=
  match page p with
  | Some thread => is_Some (key p)
  | Some _ => is_Some (sort p) ∧ is_Some (tag p)
  | None => True
  end.

(** The listing [loadPosts] builds from the backend's sequence. *)
Definition listing_of (sort tag : string) (posts : list Post) : Listing :=
  let '(content, keys) := fold_left SteemApi.collect_post posts (∅, []) in
  mkListing content (Js.set tag (Js.set sort keys ∅) ∅).

(** How many times a handler that sees [e] calls the endpoint-reset hook. *)
Definition resets_for (e : JsError) : nat :=
  if String.eqb (message e) "Network request failed" then 1 else 0.

(** The account whose profile [getStateAsync] loads for a classified path:
    what [profile_account] computes (it does not look at the world). *)
Definition derived_account (p : PathInfo) : option string :=
  match snd (SteemApi.profile_account p boot) with
  | Ok a => a
  | Throw _ => None
  end.

(** The state with which a later step starts agrees with [st] on the
    listing. *)
Definition same_listing (st st' : State) : Prop :=
  content st' = content st ∧ discussion_idx st' = discussion_idx st.

(** [s.includes(c)] for a one-character [c]. *)
Fixpoint has_char (c : ascii) (s : string) : bool :=
  match s with
  | EmptyString => false
  | String d r => Ascii.eqb d c || has_char c r
  end.

(** A path segment: a string without slash and without question mark. *)
Definition segment (s : string) : Prop :=
  has_char "/" s = false ∧ has_char "?" s = false.

(** The steps of [getStateAsync] read without their timers: what each
    makes of the state, as the backend's answers decide it. *)
Definition content_step (api_call : ∀ c : BridgeCall, JsError + Reply c)
    (p : PathInfo) (observer : option string) (st : State) : Res State :=
  match page p with
  | Some thread =>
      match key p with
      | Some (k0, k1) =>
          match api_call (get_discussion (Js.slice1 k0) k1) with
          | inr d =>
              Ok (mkState (accounts st) (community st) d
                    (discussion_idx st) (profiles st) (topics st))
          | inl e => Throw e
          end
      | None => Throw (mkError "TypeError" "Cannot read properties of null")
      end
  | Some _ =>
      match posts_reply api_call (Js.interp (sort p)) (Js.interp (tag p))
              observer with
      | inr ps =>
          let l := listing_of (Js.interp (sort p)) (Js.interp (tag p)) ps in
          Ok (mkState (accounts st) (community st) (listing_content l)
                (listing_discussion_idx l) (profiles st) (topics st))
      | inl e => Throw e
      end
  | None => Ok st
  end.

Definition community_step (api_call : ∀ c : BridgeCall, JsError + Reply c)
    (ifHive : string → bool) (p : PathInfo) (observer : option string)
    (st : State) : State :=
  if Js.truthy (tag p) && ifHive (Js.interp (tag p)) then
    match api_call (get_community (Js.interp (tag p)) observer) with
    | inr c =>
        mkState (accounts st) (Js.set (Js.interp (tag p)) c (community st))
          (content st) (discussion_idx st) (profiles st) (topics st)
    | inl _ => st
    end
  else st.

Definition profile_step (api_call : ∀ c : BridgeCall, JsError + Reply c)
    (p : PathInfo) (ssr : bool) (st : State) : Res State :=
  match derived_account p with
  | Some a =>
      if ssr && negb (String.eqb a "") then
        match api_call (get_profile a) with
        | inr (Some pr) =>
            if Js.truthy (profile_name pr) then
              Ok (mkState (accounts st) (community st) (content st)
                    (discussion_idx st) (Js.set a pr (profiles st))
                    (topics st))
            else Ok st
        | inr None => Ok st
        | inl e => Throw e
        end
      else Ok st
  | None => Ok st
  end.

Definition topics_step (api_call : ∀ c : BridgeCall, JsError + Reply c)
    (ssr : bool) (st : State) : Res State :=
  if ssr then
    match api_call (get_trending_topics 12) with
    | inr t =>
        Ok (mkState (accounts st) (community st) (content st)
              (discussion_idx st) (profiles st) (Some t))
    | inl e => Throw e
    end
  else Ok st.

Definition hydrate (api_call : ∀ c : BridgeCall, JsError + Reply c)
    (ifHive : string → bool) (stateCleaner : State → State)
    (url : string) (observer : option string) (ssr : bool) : Res State :=
  let p := parsePath url in
  match content_step api_call p observer (mkState ∅ ∅ ∅ ∅ ∅ None) with
  | Throw e => Throw e
  | Ok st1 =>
      match profile_step api_call p ssr
              (community_step api_call ifHive p observer st1) with
      | Throw e => Throw e
      | Ok st3 =>
          match topics_step api_call ssr st3 with
          | Throw e => Throw e
          | Ok st4 => Ok (stateCleaner st4)
          end
      end
  end.

(** [pass I T m]: [m] keeps the property [I] of the process, and every
    error it throws satisfies [T]. *)
Definition pass (I : World → Prop) (T : JsError → Prop) {A} (m : M A)
    : Prop :=
  ∀ w, I w → I (fst (m w)) ∧ ∀ e, snd (m w) = Throw e → T e.

(** The calls that fetch the primary content: a listing or a
    discussion. *)
Definition content_fetch (c : BridgeCall) : bool :=
  match c with
  | get_ranked_posts _ _ _ | get_account_posts _ _ _ | get_discussion _ _ =>
      true
  | _ => false
  end.

(** [traced api_call P m]: the calls [m] hands to the transport, which
    the process appends to [requests], all satisfy [P]; and when [m]
    throws, the error is what the transport answered to the last call
    [m] placed, and the last console record is the one [callBridge]
    wrote for that call and that error. *)
Definition traced (api_call : ∀ c : BridgeCall, JsError + Reply c)
    (P : BridgeCall → Prop) {A} (m : M A) : Prop :=
  ∀ w, ∃ placed,
    requests (fst (m w)) = (placed ++ requests w)%list
    ∧ (∀ c, c ∈ placed → P c)
    ∧ ∀ e, snd (m w) = Throw e →
        ∃ c earlier rest,
          placed = c :: earlier
          ∧ api_call c = inl e
          ∧ console (fst (m w)) = console_error_callBridge c e :: rest.

(** [balanced R m]: started on the registry [R], [m] leaves the registry
    [R] whenever it returns. *)
Definition balanced (R : gmap string (N * N)) {A} (m : M A) : Prop :=
  ∀ w, activeTimers w = R →
       ∀ a, snd (m w) = Ok a → activeTimers (fst (m w)) = R.

(** [stays id K l]: the key [K] is neither of the two keys a stop called
    with the label [l] and the request id [id] can remove. *)
Definition stays (id K l : string) : Prop :=
  K ≠ l ∧ K ≠ l +:+ "_" +:+ id.

(** ** Sample environments *)

Definition sample_ambient : nat → Reading :=
  fun n => mkReading (1762095600000 + N.of_nat n)
             (if Nat.even n then "k3v9x2m1q" else "i") (17%N, N.of_nat n).

Definition network_error : JsError :=
  mkError "Error" "Network request failed".

Definition remote_error : JsError :=
  mkError "RPCError" "Invalid parameters".

Definition sample_posts : list Post :=
  [mkPost "alice" "intro" "v1"; mkPost "bob" "cats" "meow";
   mkPost "alice" "intro" "v2"].

(** A backend that answers every call. *)
Definition backend_up : ∀ c : BridgeCall, JsError + Reply c :=
  fun c =>
    match c return JsError + Reply c with
    | get_ranked_posts _ _ _ => inr sample_posts
    | get_account_posts _ _ _ => inr sample_posts
    | get_discussion a p => inr {[a +:+ "/" +:+ p := mkPost a p "thread"]}
    | get_community n _ => inr n
    | get_profile a => inr (Some (mkProfile (Some a) ""))
    | get_trending_topics _ => inr ["photography"; "travel"]
    end.

(** A backend whose profile endpoint fails with an application error. *)
Definition backend_no_profile : ∀ c : BridgeCall, JsError + Reply c :=
  fun c =>
    match c return JsError + Reply c with
    | get_profile _ => inl remote_error
    | c => backend_up c
    end.

(** A backend that cannot be reached for listings. *)
Definition backend_unreachable : ∀ c : BridgeCall, JsError + Reply c :=
  fun c =>
    match c return JsError + Reply c with
    | get_ranked_posts _ _ _ => inl network_error
    | get_account_posts _ _ _ => inl network_error
    | c => backend_up c
    end.

Definition sample_ifHive (tag : string) : bool := String.prefix "hive-" tag.

(** A backend whose community endpoint fails with an application error. *)
Definition backend_no_community : ∀ c : BridgeCall, JsError + Reply c :=
  fun c =>
    match c return JsError + Reply c with
    | get_community _ _ => inl remote_error
    | c => backend_up c
    end.

Definition sample_cleaner (s : State) : State := s.

(** * Route classification *)

Lemma parsePath_wf url : path_wf (parsePath url).
Proof.
  unfold parsePath, path_wf. cbv zeta.
  repeat match goal with
         | |- context [if ?b then _ else _] => destruct b
         end; simpl; eauto.
Qed.

(** C5: the empty path, the slash-only path and "trending" classify alike,
    and every recognised sort keyword [s] alone classifies as the posts
    listing sorted by [s] with the empty tag. *)
Theorem parsePath_sort_keywords :
  parsePath "" = parsePath "trending"
  ∧ parsePath "/" = parsePath "trending"
  ∧ ∀ s, s ∈ sorts →
      parsePath s = mkPathInfo (Some posts) (Some "") (Some s) None.
Proof.
  split; [reflexivity|]. split; [reflexivity|].
  intros s Hs. unfold sorts in Hs.
  repeat (apply elem_of_cons in Hs as [->|Hs]; [reflexivity|]).
  by apply elem_of_nil in Hs.
Qed.

Lemma parsePath_sort_keywords_hot :
  "hot" ∈ sorts
  ∧ parsePath "hot" = mkPathInfo (Some posts) (Some "") (Some "hot") None.
Proof.
  assert (H : "hot" ∈ sorts) by (unfold sorts; repeat constructor).
  split; [exact H|].
  exact (proj2 (proj2 parsePath_sort_keywords) "hot" H).
Defined.

(** * The timing registry *)

Lemma append_ne_self (l x : string) (c : ascii) : l ≠ l +:+ String c x.
Proof.
  induction l as [|a l IH]; [discriminate|].
  intros H. apply IH.
  unfold String.append in H; fold String.append in H. by injection H.
Qed.

Lemma label_inj (l a b : string) : l +:+ "_" +:+ a = l +:+ "_" +:+ b → a = b.
Proof. intros H. apply String.app_inj in H. by apply String.app_inj in H. Qed.

Lemma truthy_Some (s : string) : s ≠ "" → Js.truthy (Some s) = true.
Proof. intros H. simpl. by apply String.eqb_neq in H as ->. Qed.

Section TimingFacts.
Variable ambient : nat → Reading.

Lemma generateUniqueLabel_id base id w :
  id ≠ "" →
  TimingUtils.generateUniqueLabel ambient base (Some id) w
  = (w, Ok (base +:+ "_" +:+ id)).
Proof.
  intros H. unfold TimingUtils.generateUniqueLabel.
  by rewrite (truthy_Some _ H).
Qed.

Lemma generateUniqueLabel_runs base r w :
  ∃ w' tok,
    TimingUtils.generateUniqueLabel ambient base r w = (w', Ok tok)
    ∧ activeTimers w' = activeTimers w
    ∧ rpc_resets w' = rpc_resets w.
Proof.
  unfold TimingUtils.generateUniqueLabel.
  destruct (Js.truthy r); eexists _, _; (split; [reflexivity|done]).
Qed.

(** A start registers the label it returns and changes nothing else of
    the registry. *)
Lemma safeConsoleTime_on l r w :
  ∃ w0 w' tok t,
    TimingUtils.generateUniqueLabel ambient l r w = (w0, Ok tok)
    ∧ TimingUtils.safeConsoleTime true ambient l r w = (w', Ok (Some tok))
    ∧ activeTimers w' = <[tok := t]> (activeTimers w)
    ∧ rpc_resets w' = rpc_resets w.
Proof.
  destruct (generateUniqueLabel_runs l r w) as (w0 & tok & E & Ht & Hr).
  unfold TimingUtils.safeConsoleTime, bind. rewrite E. simpl.
  eexists _, _, _, _. split; [reflexivity|]. split; [reflexivity|].
  simpl. by rewrite Ht, Hr.
Qed.

(** A stop removes at most one key: [label] itself when it is registered,
    otherwise the label derived from [label] and the request id. *)
Lemma safeConsoleTimeEnd_on l r w :
  ∃ w0 w' tok,
    TimingUtils.generateUniqueLabel ambient l r w = (w0, Ok tok)
    ∧ TimingUtils.safeConsoleTimeEnd true ambient l r w = (w', Ok tt)
    ∧ activeTimers w'
      = delete (if bool_decide (is_Some (activeTimers w !! l))
                then l else tok) (activeTimers w)
    ∧ rpc_resets w' = rpc_resets w.
Proof.
  destruct (generateUniqueLabel_runs l r w) as (w0 & tok & E & Ht & Hr).
  exists w0. unfold TimingUtils.safeConsoleTimeEnd, bind.
  unfold TimingUtils.timers_has at 1. simpl.
  destruct (bool_decide (is_Some (activeTimers w !! l))) eqn:Hl.
  - simpl. unfold TimingUtils.timers_has. simpl. rewrite Hl. simpl.
    eexists _, tok. split; [done|]. split; [reflexivity|]. done.
  - rewrite E. unfold TimingUtils.timers_has. simpl.
    destruct (bool_decide (is_Some (activeTimers w0 !! tok))) eqn:Hk; simpl.
    + eexists _, tok. split; [done|]. split; [reflexivity|].
      simpl. by rewrite Ht, Hr.
    + eexists _, tok. split; [done|]. split; [reflexivity|]. simpl.
      apply bool_decide_eq_false in Hk. rewrite Ht in Hk.
      rewrite delete_id; [done|].
      destruct (activeTimers w !! tok) eqn:E'; [|done].
      exfalso. apply Hk. eauto.
Qed.

Lemma safeConsoleTime_runs flag l r w :
  ∃ w' tok,
    TimingUtils.safeConsoleTime flag ambient l r w = (w', Ok tok)
    ∧ rpc_resets w' = rpc_resets w.
Proof.
  destruct flag.
  - destruct (safeConsoleTime_on l r w) as (? & w' & tok & ? & _ & E & _ & H).
    eauto.
  - by exists w, None.
Qed.

Lemma safeConsoleTimeEnd_runs flag l r w :
  ∃ w',
    TimingUtils.safeConsoleTimeEnd flag ambient l r w = (w', Ok tt)
    ∧ rpc_resets w' = rpc_resets w.
Proof.
  destruct flag.
  - destruct (safeConsoleTimeEnd_on l r w) as (? & w' & ? & _ & E & _ & H).
    eauto.
  - by exists w.
Qed.

End TimingFacts.

Lemma run_calls_off ambient calls w :
  run_calls false ambient calls w = (w, Ok tt).
Proof.
  induction calls as [|[l r|l r] cs IH]; simpl; [done| |];
    unfold bind; simpl; apply IH.
Qed.

(** C8: with the enable flag off, any sequence of start and stop calls
    leaves the registry empty and the active count at 0; more generally it
    leaves the registry of any world as it was. *)
Theorem disabled_timing_keeps_registry_empty ambient calls :
  activeTimers (fst (run_calls false ambient calls boot)) = ∅
  ∧ active_count (fst (run_calls false ambient calls boot)) = Ok 0
  ∧ ∀ w, activeTimers (fst (run_calls false ambient calls w))
         = activeTimers w.
Proof.
  repeat split; intros; by rewrite run_calls_off.
Qed.

(** C9: [safeTimedExecution] hands back the outcome of the operation, a
    value or the very error it threw.  With timing off it is the operation
    itself; with timing on, the span registered by the start is in the
    registry while the operation runs and is gone on exit, whatever the
    operation did. *)
Theorem safeTimedExecution_settles ambient (A : Type) label (fn : M A)
    requestId w :
  TimingUtils.safeTimedExecution false ambient label fn requestId w = fn w
  ∧ ∃ w1 tok,
      TimingUtils.safeConsoleTime true ambient label requestId w
      = (w1, Ok (Some tok))
      ∧ is_Some (activeTimers w1 !! tok)
      ∧ snd (TimingUtils.safeTimedExecution true ambient label fn
               requestId w) = snd (fn w1)
      ∧ activeTimers
          (fst (TimingUtils.safeTimedExecution true ambient label fn
                  requestId w)) !! tok = None.
Proof.
  split; [reflexivity|].
  destruct (safeConsoleTime_on ambient label requestId w)
    as (w0 & w1 & tok & t & _ & E & Hreg & _).
  exists w1, tok. split; [exact E|]. split.
  { rewrite Hreg, lookup_insert_eq. eauto. }
  unfold TimingUtils.safeTimedExecution. cbn [negb]. unfold bind.
  rewrite E. cbn [Js.interp]. unfold try_finally.
  destruct (fn w1) as [w2 r]. cbv beta iota.
  destruct (safeConsoleTimeEnd_on ambient tok None w2)
    as (w2' & w3 & tok' & _ & E' & Hreg' & _).
  rewrite E'. simpl. split; [done|]. rewrite Hreg'.
  case_bool_decide as Hl.
  - apply lookup_delete_eq.
  - rewrite lookup_delete. case_decide; [done|].
    destruct (activeTimers w2 !! tok) eqn:Hk; [|done].
    exfalso. apply Hl. eauto.
Qed.

Lemma includes_elem_of (l : list string) (x : string) :
  Js.includes l x = true ↔ x ∈ l.
Proof.
  unfold Js.includes. rewrite existsb_exists. split.
  - intros (y & Hy & E). apply String.eqb_eq in E as ->.
    by apply list_elem_of_In.
  - intros H. exists x. split; [by apply list_elem_of_In|].
    apply String.eqb_refl.
Qed.

Lemma run_calls_start flag ambient l r cs w :
  run_calls flag ambient (Start l r :: cs) w
  = bind (TimingUtils.safeConsoleTime flag ambient l r)
         (fun _ => run_calls flag ambient cs) w.
Proof. reflexivity. Qed.

Lemma run_calls_stop flag ambient l r cs w :
  run_calls flag ambient (Stop l r :: cs) w
  = bind (TimingUtils.safeConsoleTimeEnd flag ambient l r)
         (fun _ => run_calls flag ambient cs) w.
Proof. reflexivity. Qed.

Lemma run_calls_settled ambient label evs :
  ∀ begun open w,
    settled begun open evs = true →
    Forall (λ ev, event_id ev ≠ "") evs →
    holds_spans label open w →
    activeTimers (fst (run_calls true ambient (call_of label <$> evs) w))
    = ∅.
Proof.
  induction evs as [|[r|r] evs IH]; intros begun open w Hs Hne Hinv.
  - simpl in *. destruct open; [|done].
    apply map_eq. intros k. rewrite lookup_empty.
    destruct (activeTimers w !! k) eqn:E; [|done].
    destruct (proj1 (Hinv k)) as (id & Hid & _); [eauto|].
    by apply elem_of_nil in Hid.
  - simpl in Hs. apply andb_true_iff in Hs as [_ Hs].
    apply Forall_cons in Hne as [Hr Hne]. simpl in Hr.
    destruct (safeConsoleTime_on ambient label (Some r) w)
      as (w0 & w' & tok & t & Eg & E & Hreg & _).
    rewrite generateUniqueLabel_id in Eg by done.
    injection Eg as _ <-.
    rewrite fmap_cons. cbn [call_of]. rewrite run_calls_start.
    unfold bind. rewrite E.
    apply (IH _ _ _ Hs Hne).
    intros k. rewrite Hreg, lookup_insert_is_Some. split.
    + intros [<-|[_ Hk]].
      * exists r. split; [left|done].
      * apply Hinv in Hk as (id & Hid & ->). exists id. split; [by right|done].
    + intros (id & Hid & ->). apply elem_of_cons in Hid as [->|Hid].
      * by left.
      * destruct (decide (label +:+ "_" +:+ r = label +:+ "_" +:+ id));
          [by left|right]. split; [done|]. apply Hinv. eauto.
  - simpl in Hs. apply andb_true_iff in Hs as [Hopen Hs].
    apply Forall_cons in Hne as [Hr Hne]. simpl in Hr.
    destruct (safeConsoleTimeEnd_on ambient label (Some r) w)
      as (w0 & w' & tok & Eg & E & Hreg & _).
    rewrite generateUniqueLabel_id in Eg by done.
    injection Eg as _ <-.
    rewrite bool_decide_eq_false_2 in Hreg.
    2:{ intros Hk. apply Hinv in Hk as (id & _ & Hk).
        by apply append_ne_self in Hk. }
    rewrite fmap_cons. cbn [call_of]. rewrite run_calls_stop.
    unfold bind. rewrite E.
    apply (IH _ _ _ Hs Hne).
    intros k. rewrite Hreg, lookup_delete_is_Some. split.
    + intros [Hk Hsome]. apply Hinv in Hsome as (id & Hid & ->).
      exists id. split; [|done]. apply list_elem_of_filter. split; [|done].
      intros ->. done.
    + intros (id & Hid & ->). apply list_elem_of_filter in Hid as [Hid Hin].
      split.
      * intros Heq. apply label_inj in Heq. done.
      * apply Hinv. eauto.
Qed.

(** C7, for request ids that are not the empty string: a stop called with
    [(label, idA)] leaves the span started under [(label, idB)] in place
    when [idA] and [idB] differ; and when timers on one base label are
    begun under distinct request ids and each is later ended under its
    id, the registry, empty before, is empty after and the active count
    is 0. *)
Theorem stops_are_scoped_by_request_id ambient label :
  (∀ idA idB w0 w tok,
     idA ≠ idB → idA ≠ "" → idB ≠ "" →
     snd (TimingUtils.safeConsoleTime true ambient label (Some idB) w0)
     = Ok (Some tok) →
     activeTimers
       (fst (TimingUtils.safeConsoleTimeEnd true ambient label (Some idA) w))
       !! tok = activeTimers w !! tok)
  ∧ (∀ evs w,
       settled [] [] evs = true →
       Forall (λ ev, event_id ev ≠ "") evs →
       activeTimers w = ∅ →
       active_count (fst (run_calls true ambient (call_of label <$> evs) w))
       = Ok 0).
Proof.
  split.
  - intros idA idB w0 w tok Hne HA HB Hstart.
    destruct (safeConsoleTime_on ambient label (Some idB) w0)
      as (? & ? & tok' & ? & Eg & E & _).
    rewrite generateUniqueLabel_id in Eg by done. injection Eg as _ <-.
    rewrite E in Hstart. injection Hstart as <-.
    destruct (safeConsoleTimeEnd_on ambient label (Some idA) w)
      as (? & w' & tok' & Eg & E' & Hreg & _).
    rewrite generateUniqueLabel_id in Eg by done. injection Eg as _ <-.
    rewrite E'. simpl. rewrite Hreg. apply lookup_delete_ne.
    case_bool_decide.
    + apply append_ne_self.
    + intros Heq. apply label_inj in Heq. done.
  - intros evs w Hs Hne Hw. unfold active_count. simpl.
    rewrite (run_calls_settled ambient label evs [] [] w Hs Hne).
    + by rewrite map_size_empty.
    + intros k. rewrite Hw, lookup_empty. split.
      * by intros [? ?].
      * intros (id & Hid & _). by apply elem_of_nil in Hid.
Qed.

Lemma stops_are_scoped_by_request_id_sample :
  (let w := fst (TimingUtils.safeConsoleTime true sample_ambient
                   "timing_stateCleaner" (Some "req-2") boot) in
   activeTimers
     (fst (TimingUtils.safeConsoleTimeEnd true sample_ambient
             "timing_stateCleaner" (Some "req-1") w))
     !! "timing_stateCleaner_req-2"
   = activeTimers w !! "timing_stateCleaner_req-2")
  ∧ active_count
      (fst (run_calls true sample_ambient
              (call_of "timing_stateCleaner"
                 <$> [Begins "req-1"; Begins "req-2"; Ends "req-1";
                      Ends "req-2"]) boot))
    = Ok 0.
Proof.
  destruct (stops_are_scoped_by_request_id sample_ambient
              "timing_stateCleaner") as [H1 H2].
  split.
  - apply (H1 "req-1" "req-2" boot); [done|done|done|reflexivity].
  - apply H2; [reflexivity| |reflexivity].
    repeat constructor; done.
Defined.

(** C7 as stated fails for the empty request id: it counts as no id, the
    start and the stop each derive a fresh fallback label, and the span
    stays in the registry. *)
Lemma empty_request_id_leaves_a_span :
  settled [] [] [Begins ""; Begins "req-1"; Ends "req-1"; Ends ""] = true
  ∧ active_count
      (fst (run_calls true sample_ambient
              (call_of "timing_stateCleaner"
                 <$> [Begins ""; Begins "req-1"; Ends "req-1"; Ends ""])
              boot))
    = Ok 1.
Proof. split; vm_compute; reflexivity. Qed.

(** * Reasoning rules for computations *)

Lemma ensures_ret {A} (a : A) w Q : Q w (Ok a) → ensures (ret a) w Q.
Proof. done. Qed.

Lemma ensures_throw {A} e w (Q : World → Res A → Prop) :
  Q w (Throw e) → ensures (throw e) w Q.
Proof. done. Qed.

Lemma ensures_bind {A B} (m : M A) (f : A → M B) w Q :
  ensures m w (λ w1 r, match r with
                       | Ok a => ensures (f a) w1 Q
                       | Throw e => Q w1 (Throw e)
                       end) →
  ensures (bind m f) w Q.
Proof.
  unfold ensures, bind. destruct (m w) as [w1 [a|e]]; simpl; auto.
Qed.

Lemma ensures_try_catch {A} (m : M A) (h : JsError → M A) w Q :
  ensures m w (λ w1 r, match r with
                       | Ok a => Q w1 (Ok a)
                       | Throw e => ensures (h e) w1 Q
                       end) →
  ensures (try_catch m h) w Q.
Proof.
  unfold ensures, try_catch. destruct (m w) as [w1 [a|e]]; simpl; auto.
Qed.

Lemma ensures_emit ev w (Q : World → Res unit → Prop) :
  (∀ w', rpc_resets w' = rpc_resets w →
         console w' = ev :: console w → Q w' (Ok tt)) →
  ensures (emit ev) w Q.
Proof. intros H. apply H; done. Qed.

Lemma ensures_hook w (Q : World → Res unit → Prop) :
  (∀ w', rpc_resets w' = S (rpc_resets w) →
         console w' = console w → Q w' (Ok tt)) →
  ensures changeRPCNodeToDefault w Q.
Proof. intros H. apply H; done. Qed.

Section ApiFacts.
Variable ENABLE_TIMING : bool.
Variable ambient : nat → Reading.
Variable api_call : ∀ c : BridgeCall, JsError + Reply c.

Lemma ensures_start l r w (Q : World → Res (option string) → Prop) :
  (∀ w' tok, rpc_resets w' = rpc_resets w → Q w' (Ok tok)) →
  ensures (TimingUtils.safeConsoleTime ENABLE_TIMING ambient l r) w Q.
Proof.
  intros H.
  destruct (safeConsoleTime_runs ambient ENABLE_TIMING l r w)
    as (w' & tok & E & Hr).
  unfold ensures. rewrite E. by apply H.
Qed.

Lemma ensures_stop l r w (Q : World → Res unit → Prop) :
  (∀ w', rpc_resets w' = rpc_resets w → Q w' (Ok tt)) →
  ensures (TimingUtils.safeConsoleTimeEnd ENABLE_TIMING ambient l r) w Q.
Proof.
  intros H.
  destruct (safeConsoleTimeEnd_runs ambient ENABLE_TIMING l r w)
    as (w' & E & Hr).
  unfold ensures. rewrite E. by apply H.
Qed.

(** [callBridge] resolves with the data, or logs, resets the endpoint on a
    network failure, and rejects with the transport's error. *)
Lemma ensures_callBridge c w (Q : World → Res (Reply c) → Prop) :
  (∀ d w', api_call c = inr d → rpc_resets w' = rpc_resets w →
           Q w' (Ok d)) →
  (∀ e w', api_call c = inl e →
           rpc_resets w' = resets_for e + rpc_resets w →
           Q w' (Throw e)) →
  ensures (SteemApi.callBridge api_call c) w Q.
Proof.
  intros Hok Herr. unfold ensures, SteemApi.callBridge.
  destruct (api_call c) as [e|d]; [|by apply Hok].
  unfold bind, api_send, emit. cbv beta iota.
  unfold resets_for in Herr.
  destruct (String.eqb (message e) "Network request failed") eqn:Hm.
  - specialize (Herr e). rewrite Hm in Herr. by apply Herr.
  - specialize (Herr e). rewrite Hm in Herr. by apply Herr.
Qed.

Lemma ensures_loadPosts sort tag observer ssr requestId w
    (Q : World → Res Listing → Prop) :
  (∀ w' posts, posts_reply api_call sort tag observer = inr posts →
               rpc_resets w' = rpc_resets w →
               Q w' (Ok (listing_of sort tag posts))) →
  (∀ w' e, posts_reply api_call sort tag observer = inl e →
           rpc_resets w' = resets_for e + rpc_resets w →
           Q w' (Throw e)) →
  ensures (SteemApi.loadPosts ENABLE_TIMING ambient api_call sort tag observer
          ssr requestId) w Q.
Proof.
  intros Hok Herr. unfold SteemApi.loadPosts, posts_reply in *.
  apply ensures_bind.
  destruct (Js.starts_with "@" tag); cbn [Js.truthy Js.interp];
    [destruct (String.eqb (Js.slice1 tag) "")|];
    cbn [negb andb] in *; cbv beta iota;
    (apply ensures_bind, ensures_start; intros w1 _ H1;
     apply ensures_bind, ensures_callBridge;
     [ intros posts w1' Hp H1'; apply ensures_bind, ensures_stop;
       intros w2 H2; apply ensures_ret;
       specialize (Hok w2 posts Hp); unfold listing_of in Hok;
       destruct (fold_left _ posts _) as [content keys];
       apply ensures_ret, Hok; congruence
     | intros e w2 He H2; apply (Herr _ _ He); congruence ]).
Qed.

End ApiFacts.

(** * The calls a computation places *)

Section Traced.
Variable api_call : ∀ c : BridgeCall, JsError + Reply c.
Variable P : BridgeCall → Prop.

Lemma traced_quiet {A} (m : M A) :
  (∀ w, requests (fst (m w)) = requests w ∧ ∃ a, snd (m w) = Ok a) →
  traced api_call P m.
Proof.
  intros H w. destruct (H w) as [Hr [a Ha]]. exists [].
  split; [done|]. split; [by intros c ?%elem_of_nil|].
  intros e He. congruence.
Qed.

Lemma traced_ret {A} (a : A) : traced api_call P (ret a).
Proof. apply traced_quiet. intros w. split; [done|by exists a]. Qed.

Lemma traced_emit ev : traced api_call P (emit ev).
Proof. apply traced_quiet. intros w. split; [done|by exists tt]. Qed.

Lemma traced_bind {A B} (m : M A) (f : A → M B) :
  traced api_call P m → (∀ a, traced api_call P (f a)) →
  traced api_call P (bind m f).
Proof.
  intros Hm Hf w. unfold bind.
  destruct (Hm w) as (placed1 & Hr1 & HP1 & Hthrow1).
  destruct (m w) as [w1 [a|e]]; cbn [fst snd] in *.
  - destruct (Hf a w1) as (placed2 & Hr2 & HP2 & Hthrow2).
    exists (placed2 ++ placed1)%list.
    split; [by rewrite Hr2, Hr1, app_assoc|].
    split; [intros c [?|?]%elem_of_app; auto|].
    intros e He. destruct (Hthrow2 e He) as (c & earlier & rest & -> & ?).
    by exists c, (earlier ++ placed1)%list, rest.
  - exists placed1. split; [done|]. split; [done|].
    intros e' [= <-]. by apply Hthrow1.
Qed.

Lemma traced_bind_ret {A B} (a : A) (f : A → M B) :
  traced api_call P (f a) → traced api_call P (bind (ret a) f).
Proof. intros H w. exact (H w). Qed.

(** [try { m } catch (e) {}] around a step that falls back on [a]. *)
Lemma traced_swallow {A} (m : M A) (a : A) :
  traced api_call P m → traced api_call P (try_catch m (λ _, ret a)).
Proof.
  intros Hm w. unfold try_catch.
  destruct (Hm w) as (placed & Hr & HP & _).
  destruct (m w) as [w1 [a'|e]]; cbn [fst snd] in *;
    exists placed; (split; [done|]); (split; [done|]); by intros e' [=].
Qed.

Lemma traced_safeConsoleTime flag ambient l r :
  traced api_call P (TimingUtils.safeConsoleTime flag ambient l r).
Proof.
  apply traced_quiet. intros w.
  unfold TimingUtils.safeConsoleTime, TimingUtils.generateUniqueLabel.
  destruct flag; [|by split; [|exists None]].
  destruct (Js.truthy r); (split; [done|]); eexists; reflexivity.
Qed.

Lemma traced_safeConsoleTimeEnd flag ambient l r :
  traced api_call P (TimingUtils.safeConsoleTimeEnd flag ambient l r).
Proof.
  apply traced_quiet. intros w.
  unfold TimingUtils.safeConsoleTimeEnd, TimingUtils.generateUniqueLabel,
    TimingUtils.timers_has, bind.
  destruct flag; [|by split; [|exists tt]]. cbv beta iota.
  destruct (bool_decide (is_Some (activeTimers w !! l))); cbv beta iota.
  - unfold ret. cbv beta iota.
    destruct (bool_decide _); (split; [done|]); by exists tt.
  - destruct (Js.truthy r); unfold ret, TimingUtils.read_ambient;
      cbv beta iota; cbn [activeTimers];
      destruct (bool_decide _); (split; [done|]); by exists tt.
Qed.

Lemma traced_callBridge c :
  P c → traced api_call P (SteemApi.callBridge api_call c).
Proof.
  intros Hc w. exists [c]. unfold SteemApi.callBridge, bind, api_send.
  cbv beta iota.
  split; [|split; [by intros c' ->%list_elem_of_singleton|]].
  - destruct (api_call c) as [e|d]; [|done].
    unfold emit. cbv beta iota.
    by destruct (String.eqb (message e) "Network request failed").
  - intros e. destruct (api_call c) as [e0|d] eqn:E; [|by intros [=]].
    unfold emit. cbv beta iota.
    destruct (String.eqb (message e0) "Network request failed");
      intros [= <-]; by exists c, [], (console w).
Qed.

End Traced.

(** * The posts aggregation *)

Lemma absent_not_elem_of (l : list string) (x : string) :
  Js.absent l x = true ↔ x ∉ l.
Proof.
  unfold Js.absent. rewrite negb_true_iff, <- not_true_iff_false.
  by rewrite includes_elem_of.
Qed.

Lemma collect_snoc posts p acc :
  fold_left SteemApi.collect_post (posts ++ [p])%list acc
  = SteemApi.collect_post (fold_left SteemApi.collect_post posts acc) p.
Proof. by rewrite fold_left_app. Qed.

(** The key list of the loop is duplicate-free and in first-seen order. *)
Lemma collected_keys posts :
  first_seen_order (fold_left SteemApi.collect_post posts (∅, [])).2
    (SteemApi.post_key <$> posts).
Proof.
  induction posts as [|p posts IH] using rev_ind.
  - repeat split; simpl; try done.
    + constructor.
    + intros l1 k l2 H. by destruct l1.
  - rewrite collect_snoc, fmap_app. simpl.
    destruct (fold_left _ posts _) as [content keys]. simpl in *.
    destruct IH as (Hnd & Hin & Hord).
    destruct (Js.absent keys (SteemApi.post_key p)) eqn:Habs.
    + apply absent_not_elem_of in Habs. repeat split.
      * apply NoDup_app. repeat split; [done| |apply NoDup_singleton].
        intros x Hx ->%list_elem_of_singleton. done.
      * rewrite !elem_of_app, Hin. done.
      * rewrite !elem_of_app, Hin. done.
      * intros l1 k l2 Hsplit.
        destruct l2 as [|y l2 _] using rev_ind.
        -- apply app_inj_tail in Hsplit as [-> Hk]. subst k.
           exists (SteemApi.post_key <$> posts), []. split; [done|].
           split; [by rewrite <- Hin|]. intros x. apply Hin.
        -- rewrite app_comm_cons, app_assoc in Hsplit.
           apply app_inj_tail in Hsplit as [Hk Hy]. subst y.
           destruct (Hord _ _ _ Hk) as (pre & suf & E & Hpre & Hl1).
           exists pre, (suf ++ [SteemApi.post_key p])%list. split; [|done].
           rewrite E. by rewrite <- app_assoc.
    + apply not_true_iff_false in Habs. rewrite absent_not_elem_of in Habs.
      apply dec_stable in Habs. repeat split; [done| | |].
      * rewrite elem_of_app, Hin. tauto.
      * rewrite elem_of_app, Hin. intros [H| ->%list_elem_of_singleton]; [done|].
        by apply Hin.
      * intros l1 k l2 Hk.
        destruct (Hord _ _ _ Hk) as (pre & suf & E & Hpre & Hl1).
        exists pre, (suf ++ [SteemApi.post_key p])%list. split; [|done].
        rewrite E. by rewrite <- app_assoc.
Qed.

(** The content map has exactly the keys seen, each with the record of
    its last occurrence. *)
Lemma collected_content posts :
  (∀ k, is_Some ((fold_left SteemApi.collect_post posts (∅, [])).1 !! k)
        ↔ k ∈ SteemApi.post_key <$> posts)
  ∧ ∀ pre p suf,
      posts = (pre ++ p :: suf)%list →
      (∀ q, q ∈ suf → SteemApi.post_key q ≠ SteemApi.post_key p) →
      (fold_left SteemApi.collect_post posts (∅, [])).1
        !! SteemApi.post_key p = Some p.
Proof.
  induction posts as [|q posts [IHdom IHlast]] using rev_ind.
  - split.
    + intros k. simpl. rewrite lookup_empty. split; [by intros [? ?]|].
      by intros ?%elem_of_nil.
    + intros pre p suf H. by destruct pre.
  - rewrite collect_snoc, fmap_app.
    destruct (fold_left _ posts _) as [content keys]. simpl in *. split.
    + intros k. rewrite lookup_insert_is_Some, elem_of_app, <- IHdom.
      rewrite list_elem_of_singleton.
      split.
      * intros [<-|[_ H]]; [by right|by left].
      * intros [H| ->]; [|by left].
        destruct (decide (SteemApi.post_key q = k)); [by left|by right].
    + intros pre p suf Hsplit Hlast.
      destruct suf as [|y suf _] using rev_ind.
      * apply app_inj_tail in Hsplit as [-> ->]. apply lookup_insert_eq.
      * rewrite app_comm_cons, app_assoc in Hsplit.
        apply app_inj_tail in Hsplit as [Hposts Hy]. subst y.
        rewrite lookup_insert_ne.
        -- apply (IHlast _ _ _ Hposts). intros q' Hq'. apply Hlast.
           apply elem_of_app. by left.
        -- apply Hlast. apply elem_of_app. right. by left.
Qed.

(** Assignment to an object: what is read back, and which keys become
    own properties. *)
Lemma obj_lookup_set {V} k (v : V) (o : Js.Obj V) :
  Js.set k v o !! k = Some v.
Proof.
  unfold lookup, Js.obj_lookup, Js.get, Js.set.
  destruct (String.eqb k "__proto__"); [done|]. cbn [Js.own].
  apply lookup_insert_eq.
Qed.

Lemma obj_set_own {V} k (v : V) (o : Js.Obj V) :
  k ≠ "__proto__" →
  Js.set k v o = Js.mkObj (<[k := v]> (Js.own o)) (Js.proto o).
Proof.
  intros Hk. unfold Js.set. by rewrite (proj2 (String.eqb_neq _ _) Hk).
Qed.

Lemma obj_set_proto {V} (v : V) (o : Js.Obj V) :
  Js.set "__proto__" v o = Js.mkObj (Js.own o) (Some v).
Proof. reflexivity. Qed.

Section Aggregation.
Variable ENABLE_TIMING : bool.
Variable ambient : nat → Reading.
Variable api_call : ∀ c : BridgeCall, JsError + Reply c.

(** C6: whatever sequence of post records the backend returns, repeats
    included, [loadPosts] returns a listing whose key list under
    [discussion_idx[tag][sort]] has each composite key once, in the order
    of its first occurrence in the response. *)
Theorem loadPosts_keys_first_seen sort tag observer ssr requestId w posts :
  posts_reply api_call sort tag observer = inr posts →
  ∃ listing by_sort keys,
    snd (SteemApi.loadPosts ENABLE_TIMING ambient api_call sort tag observer
           ssr requestId w) = Ok listing
    ∧ listing_discussion_idx listing !! tag = Some by_sort
    ∧ by_sort !! sort = Some keys
    ∧ first_seen_order keys (SteemApi.post_key <$> posts).
Proof.
  intros Hposts.
  change (ensures (SteemApi.loadPosts ENABLE_TIMING ambient api_call sort tag
                  observer ssr requestId) w
            (λ _ r, ∃ listing by_sort keys,
                r = Ok listing
                ∧ listing_discussion_idx listing !! tag = Some by_sort
                ∧ by_sort !! sort = Some keys
                ∧ first_seen_order keys (SteemApi.post_key <$> posts))).
  apply ensures_loadPosts; [|intros ? ? ?; congruence].
  intros _ posts' Hp _. assert (posts' = posts) as -> by congruence.
  pose proof (collected_keys posts) as Hkeys. unfold listing_of.
  destruct (fold_left _ posts _) as [content keys].
  eexists _, _, keys. split; [reflexivity|]. simpl.
  split; [apply obj_lookup_set|]. split; [apply obj_lookup_set|done].
Qed.

(** X30: the shape of a listing under ordinary keys.  For a tag and a sort
    other than "__proto__", the listing's [discussion_idx] has the
    requested tag as its only own property and, under it, the requested
    sort as its only own property, both objects with their prototype
    untouched; every key of that list is a key of [content]; a key
    returned several times maps to the record of its last occurrence,
    while the key list keeps the first-seen order. *)
Theorem loadPosts_listing_shape sort tag observer ssr requestId w posts :
  tag ≠ "__proto__" →
  sort ≠ "__proto__" →
  posts_reply api_call sort tag observer = inr posts →
  ∃ listing keys,
    snd (SteemApi.loadPosts ENABLE_TIMING ambient api_call sort tag observer
           ssr requestId w) = Ok listing
    ∧ listing_discussion_idx listing
      = Js.mkObj {[ tag := Js.mkObj {[ sort := keys ]} None ]} None
    ∧ (∀ k, k ∈ keys → is_Some (listing_content listing !! k))
    ∧ (∀ pre p suf,
         posts = (pre ++ p :: suf)%list →
         (∀ q, q ∈ suf → SteemApi.post_key q ≠ SteemApi.post_key p) →
         listing_content listing !! SteemApi.post_key p = Some p)
    ∧ first_seen_order keys (SteemApi.post_key <$> posts).
Proof.
  intros Htag Hsort Hposts.
  change (ensures (SteemApi.loadPosts ENABLE_TIMING ambient api_call sort tag
                  observer ssr requestId) w
            (λ _ r, ∃ listing keys,
                r = Ok listing
                ∧ listing_discussion_idx listing
                  = Js.mkObj {[ tag := Js.mkObj {[ sort := keys ]} None ]}
                      None
                ∧ (∀ k, k ∈ keys → is_Some (listing_content listing !! k))
                ∧ (∀ pre p suf,
                     posts = (pre ++ p :: suf)%list →
                     (∀ q, q ∈ suf →
                           SteemApi.post_key q ≠ SteemApi.post_key p) →
                     listing_content listing !! SteemApi.post_key p = Some p)
                ∧ first_seen_order keys (SteemApi.post_key <$> posts))).
  apply ensures_loadPosts; [|intros ? ? ?; congruence].
  intros _ posts' Hp _. assert (posts' = posts) as -> by congruence.
  pose proof (collected_keys posts) as Hkeys.
  pose proof (collected_content posts) as [Hdom Hlast].
  unfold listing_of. destruct (fold_left _ posts _) as [content keys].
  simpl in *. eexists _, keys.
  split; [reflexivity|]. simpl.
  split; [by rewrite !obj_set_own by done|].
  split; [|done].
  intros k Hk. apply Hdom. by apply Hkeys.
Qed.

(** C10 does not hold of the code for the tag "__proto__", which a URL
    such as "trending/__proto__" yields: [discussion_idx[tag] = {}] then
    replaces the prototype of [discussion_idx], so the listing returned
    has no tag entry of its own at all; the key list sits, under the
    sort, on the object that has become the prototype. *)
Theorem loadPosts_proto_tag_has_no_entry sort observer ssr requestId w
    posts :
  posts_reply api_call sort "__proto__" observer = inr posts →
  ∃ listing keys,
    snd (SteemApi.loadPosts ENABLE_TIMING ambient api_call sort "__proto__"
           observer ssr requestId w) = Ok listing
    ∧ Js.own (listing_discussion_idx listing) = ∅
    ∧ Js.proto (listing_discussion_idx listing) = Some (Js.set sort keys ∅)
    ∧ first_seen_order keys (SteemApi.post_key <$> posts).
Proof.
  intros Hposts.
  change (ensures (SteemApi.loadPosts ENABLE_TIMING ambient api_call sort
                  "__proto__" observer ssr requestId) w
            (λ _ r, ∃ listing keys,
                r = Ok listing
                ∧ Js.own (listing_discussion_idx listing) = ∅
                ∧ Js.proto (listing_discussion_idx listing)
                  = Some (Js.set sort keys ∅)
                ∧ first_seen_order keys (SteemApi.post_key <$> posts))).
  apply ensures_loadPosts; [|intros ? ? ?; congruence].
  intros _ posts' Hp _. assert (posts' = posts) as -> by congruence.
  pose proof (collected_keys posts) as Hkeys.
  unfold listing_of. destruct (fold_left _ posts _) as [content keys].
  eexists _, keys. split; [reflexivity|]. by rewrite obj_set_proto.
Qed.

End Aggregation.

(** * The state assembler *)

Lemma content_call_None p observer :
  page p = None → content_call p observer = None.
Proof. unfold content_call. by intros ->. Qed.

(** The listing branch of [load_content]: timer, [loadPosts], timer. *)
Ltac listing_branch Hok Herr :=
  apply ensures_bind, ensures_start; intros ? _ ?;
  apply ensures_bind, ensures_loadPosts;
  [ let Hp := fresh "Hp" in
    intros ? ? Hp ?; apply ensures_bind, ensures_stop; intros ? ?;
    apply ensures_ret, Hok; [done|];
    unfold posts_reply in Hp; intros ? ?;
    destruct (_ && _); intros [= <-]; congruence
  | let He := fresh "He" in
    intros ? ? He ?; unfold posts_reply in He;
    destruct (_ && _); eapply Herr; eauto; congruence ].

Section Hydration.
Variable ENABLE_TIMING : bool.
Variable ambient : nat → Reading.
Variable api_call : ∀ c : BridgeCall, JsError + Reply c.
Variable ifHive : string → bool.
Variable stateCleaner : State → State.

Local Abbreviation getStateAsync :=
  (SteemApi.getStateAsync ENABLE_TIMING ambient api_call ifHive stateCleaner).

Lemma ensures_load_content p observer ssr requestId st w
    (Q : World → Res State → Prop) :
  path_wf p →
  (page p = None → Q w (Ok st)) →
  (∀ w' st',
     page p ≠ None →
     (∀ c e, content_call p observer = Some c → api_call c ≠ inl e) →
     Q w' (Ok st')) →
  (∀ w' c e,
     content_call p observer = Some c → api_call c = inl e →
     rpc_resets w' = resets_for e + rpc_resets w →
     Q w' (Throw e)) →
  ensures (SteemApi.load_content ENABLE_TIMING ambient api_call p observer ssr
          requestId st) w Q.
Proof.
  intros Hwf Hnone Hok Herr.
  unfold SteemApi.load_content, path_wf, content_call in *.
  destruct (page p) as [[]|]; [listing_branch Hok Herr| |
                              listing_branch Hok Herr|by apply Hnone].
  destruct Hwf as [[k0 k1] Hkey]. rewrite Hkey in *. simpl.
  apply ensures_bind, ensures_ret. apply ensures_bind, ensures_ret.
  apply ensures_bind, ensures_start. intros w1 _ H1.
  apply ensures_bind. unfold SteemApi.loadThread.
  apply ensures_bind, ensures_start. intros w2 _ H2.
  apply ensures_bind, ensures_callBridge.
  - intros d ? Hd _. apply ensures_bind, ensures_stop. intros w3 H3.
    apply ensures_ret. apply ensures_bind, ensures_stop. intros w4 H4.
    apply ensures_ret, Hok; [done|]. intros c e [= <-]. congruence.
  - intros e w3 He H3. eapply Herr; eauto. congruence.
Qed.

(** The same rule when the two ways of succeeding need not be told
    apart. *)
Lemma ensures_load_content_any p observer ssr requestId st w
    (Q : World → Res State → Prop) :
  path_wf p →
  (∀ w' st',
     (∀ c e, content_call p observer = Some c → api_call c ≠ inl e) →
     Q w' (Ok st')) →
  (∀ w' c e,
     content_call p observer = Some c → api_call c = inl e →
     rpc_resets w' = resets_for e + rpc_resets w →
     Q w' (Throw e)) →
  ensures (SteemApi.load_content ENABLE_TIMING ambient api_call p observer ssr
          requestId st) w Q.
Proof.
  intros Hwf Hok Herr. apply ensures_load_content; auto.
  intros Hnone. apply Hok. intros c e.
  by rewrite (content_call_None _ _ Hnone).
Qed.

Lemma ensures_append_community p observer requestId st w
    (Q : World → Res State → Prop) :
  (∀ w' st', same_listing st st' → Q w' (Ok st')) →
  ensures (SteemApi.append_community ENABLE_TIMING ambient api_call ifHive p
          observer requestId st) w Q.
Proof.
  intros H. unfold SteemApi.append_community.
  destruct (_ && _); [|by apply ensures_ret, H].
  apply ensures_try_catch, ensures_bind, ensures_start. intros w1 _ _.
  apply ensures_bind, ensures_callBridge.
  - intros d ? _ _. apply ensures_bind, ensures_stop. intros w2 _.
    apply ensures_ret. by apply H.
  - intros e w2 _ _. by apply ensures_ret, H.
Qed.

Lemma profile_account_run p w :
  path_wf p →
  SteemApi.profile_account p w = (w, Ok (derived_account p)).
Proof.
  unfold derived_account, SteemApi.profile_account, path_wf.
  destruct (_ && _); [done|].
  destruct (page p) as [[]|]; try done.
  intros [[k0 k1] ->]. done.
Qed.

Lemma ensures_load_profile p ssr requestId st w
    (Q : World → Res State → Prop) :
  path_wf p →
  (∀ w' st',
     same_listing st st' →
     (ssr = true → ∀ a e, derived_account p = Some a → a ≠ "" →
                          api_call (get_profile a) ≠ inl e) →
     Q w' (Ok st')) →
  (∀ w' a e,
     ssr = true → derived_account p = Some a → a ≠ "" →
     api_call (get_profile a) = inl e →
     Q w' (Throw e)) →
  ensures (SteemApi.load_profile ENABLE_TIMING ambient api_call p ssr
          requestId st) w Q.
Proof.
  intros Hwf Hok Herr. unfold SteemApi.load_profile.
  apply ensures_bind. unfold ensures at 1. rewrite (profile_account_run _ _ Hwf).
  cbn [fst snd].
  destruct ssr; cbn [andb]; [|by apply ensures_ret, Hok].
  destruct (derived_account p) as [a|]; cbn [Js.truthy Js.interp];
    [|by apply ensures_ret, Hok].
  destruct (String.eqb_spec a "") as [->|Ha]; cbn [negb].
  { apply ensures_ret, Hok; [done|]. by intros _ a e [= <-]. }
  apply ensures_bind, ensures_start. intros w1 _ _.
  apply ensures_bind, ensures_callBridge.
  - intros d ? Hd _. apply ensures_bind, ensures_stop. intros w2 _.
    assert (Hfine : ∀ a' e, Some a = Some a' → a' ≠ "" →
                            api_call (get_profile a') ≠ inl e).
    { intros a' e [= <-] _. congruence. }
    destruct d as [pr|]; [destruct (Js.truthy (profile_name pr))|];
      apply ensures_ret, Hok; auto; done.
  - intros e w2 He _. by eapply Herr.
Qed.

Lemma ensures_append_topics ssr requestId st w
    (Q : World → Res State → Prop) :
  (∀ w' st',
     same_listing st st' →
     (ssr = true → ∀ e, api_call (get_trending_topics 12) ≠ inl e) →
     Q w' (Ok st')) →
  (∀ w' e,
     ssr = true → api_call (get_trending_topics 12) = inl e →
     Q w' (Throw e)) →
  ensures (SteemApi.append_topics ENABLE_TIMING ambient api_call ssr requestId
          st) w Q.
Proof.
  intros Hok Herr. unfold SteemApi.append_topics.
  destruct ssr; [|by apply ensures_ret, Hok].
  apply ensures_bind, ensures_start. intros w1 _ _.
  apply ensures_bind, ensures_callBridge.
  - intros d ? Hd _. apply ensures_bind, ensures_stop. intros w2 _.
    apply ensures_ret, Hok; [done|]. intros _ e. congruence.
  - intros e w2 He _. by apply Herr.
Qed.

Lemma ensures_clean requestId st w (Q : World → Res State → Prop) :
  (∀ w', Q w' (Ok (stateCleaner st))) →
  ensures (SteemApi.clean ENABLE_TIMING ambient stateCleaner requestId st) w Q.
Proof.
  intros H. unfold SteemApi.clean.
  apply ensures_bind, ensures_start. intros w1 _ _.
  apply ensures_bind, ensures_stop. intros w2 _. apply ensures_ret, H.
Qed.

(** The handler logs the context, calls the hook on a network failure and
    throws the error it caught. *)
Lemma ensures_on_error url requestId e w (Q : World → Res State → Prop) :
  (∀ w', rpc_resets w' = resets_for e + rpc_resets w →
         console w' = console_error_getStateAsync e requestId url
                        :: console w →
         Q w' (Throw e)) →
  ensures (SteemApi.on_error url requestId e) w Q.
Proof.
  intros H. unfold SteemApi.on_error, resets_for in *.
  apply ensures_bind, ensures_emit. intros w1 Hr Hc.
  apply ensures_bind.
  destruct (String.eqb (message e) "Network request failed").
  - apply ensures_hook. intros w2 Hr2 Hc2.
    apply ensures_throw, H; simpl; congruence.
  - apply ensures_ret, ensures_throw, H; simpl; congruence.
Qed.

(** C1, as the code has it: in full server-rendering mode, when an
    account is derived from the path and its profile fetch fails,
    [getStateAsync] fails: it throws the profile-fetch error, unless the
    primary content fetch had failed before, whose error it then throws. *)
Theorem profile_failure_fails_hydration url observer requestId w a e :
  derived_account (parsePath url) = Some a →
  a ≠ "" →
  api_call (get_profile a) = inl e →
  ∃ e', snd (getStateAsync url observer true requestId w) = Throw e'
        ∧ (e' = e
           ∨ ∃ c, content_call (parsePath url) observer = Some c
                  ∧ api_call c = inl e').
Proof.
  intros Hacc Ha He.
  change (ensures (getStateAsync url observer true requestId) w
            (λ _ r, ∃ e', r = Throw e'
               ∧ (e' = e
                  ∨ ∃ c, content_call (parsePath url) observer = Some c
                         ∧ api_call c = inl e'))).
  unfold SteemApi.getStateAsync.
  apply ensures_try_catch, ensures_bind, ensures_emit. intros w1 _ _.
  apply ensures_bind, ensures_load_content_any; [apply parsePath_wf| |].
  - intros w2 st2 _.
    apply ensures_bind, ensures_append_community. intros w3 st3 _.
    apply ensures_bind, ensures_load_profile; [apply parsePath_wf| |].
    + intros w4 st4 _ Hfine. exfalso. by eapply Hfine.
    + intros w4 a' e' _ Ha' _ He'. apply ensures_on_error. intros w5 _ _.
      assert (a' = a) as -> by congruence.
      rewrite He in He'. injection He' as <-. eauto.
  - intros w2 c e' Hc He' _. apply ensures_on_error. intros w3 _ _.
    exists e'. split; [done|right]. eauto.
Qed.


(** The calls of each step, and of the whole of [getStateAsync]. *)
Ltac traces :=
  repeat first
    [ apply traced_ret
    | apply traced_emit
    | apply traced_safeConsoleTime
    | apply traced_safeConsoleTimeEnd
    | apply traced_bind; [|intros ?]
    | match goal with
      | |- traced _ _ (match ?x with _ => _ end) => destruct x
      | |- traced _ _ (let '(_, _) := ?x in _) => destruct x
      end ].

Lemma traced_loadPosts P sort tag observer ssr requestId :
  (∀ c, (if Js.starts_with "@" tag && negb (String.eqb (Js.slice1 tag) "")
         then Some (get_account_posts sort (Js.slice1 tag) observer)
         else Some (get_ranked_posts sort tag observer)) = Some c → P c) →
  traced api_call P
    (SteemApi.loadPosts ENABLE_TIMING ambient api_call sort tag observer ssr
       requestId).
Proof.
  intros Hc. unfold SteemApi.loadPosts.
  destruct (Js.starts_with "@" tag); cbn [Js.truthy Js.interp];
    [destruct (String.eqb (Js.slice1 tag) "")|];
    cbn [negb andb] in *;
    (apply traced_bind;
     [ apply traced_bind; [apply traced_safeConsoleTime|intros _];
       apply traced_bind; [by apply traced_callBridge, Hc|intros ?];
       traces
     | intros ?; traces ]).
Qed.

Lemma traced_load_content P p observer ssr requestId st :
  path_wf p →
  (∀ c, content_call p observer = Some c → P c) →
  traced api_call P
    (SteemApi.load_content ENABLE_TIMING ambient api_call p observer ssr
       requestId st).
Proof.
  intros Hwf Hc. unfold SteemApi.load_content, content_call, path_wf in *.
  destruct (page p) as [[]|]; [| | |apply traced_ret].
  - apply traced_bind; [apply traced_safeConsoleTime|intros _].
    apply traced_bind; [by apply traced_loadPosts|intros ?]. traces.
  - destruct Hwf as [[k0 k1] Hkey]. rewrite Hkey in *.
    unfold SteemApi.key_at, SteemApi.loadThread.
    apply traced_bind_ret, traced_bind_ret.
    apply traced_bind; [apply traced_safeConsoleTime|intros _].
    apply traced_bind; [|intros ?; traces].
    apply traced_bind; [apply traced_safeConsoleTime|intros _].
    apply traced_bind; [by apply traced_callBridge, Hc|intros ?]. traces.
  - apply traced_bind; [apply traced_safeConsoleTime|intros _].
    apply traced_bind; [by apply traced_loadPosts|intros ?]. traces.
Qed.

Lemma traced_append_community P p observer requestId st :
  (∀ n, P (get_community n observer)) →
  traced api_call P
    (SteemApi.append_community ENABLE_TIMING ambient api_call ifHive p
       observer requestId st).
Proof.
  intros Hc. unfold SteemApi.append_community.
  destruct (_ && _); [|apply traced_ret].
  apply traced_swallow.
  apply traced_bind; [apply traced_safeConsoleTime|intros _].
  apply traced_bind; [by apply traced_callBridge|intros ?]. traces.
Qed.

Lemma traced_load_profile P p ssr requestId st :
  path_wf p →
  (∀ a, P (get_profile a)) →
  traced api_call P
    (SteemApi.load_profile ENABLE_TIMING ambient api_call p ssr requestId
       st).
Proof.
  intros Hwf Hc. unfold SteemApi.load_profile.
  apply traced_bind.
  { apply traced_quiet. intros w. rewrite (profile_account_run _ _ Hwf).
    split; [done|by eexists]. }
  intros account. destruct (ssr && Js.truthy account); [|apply traced_ret].
  apply traced_bind; [apply traced_safeConsoleTime|intros _].
  apply traced_bind; [by apply traced_callBridge|intros ?]. traces.
Qed.

Lemma traced_append_topics P ssr requestId st :
  P (get_trending_topics 12) →
  traced api_call P
    (SteemApi.append_topics ENABLE_TIMING ambient api_call ssr requestId
       st).
Proof.
  intros Hc. unfold SteemApi.append_topics.
  destruct ssr; [|apply traced_ret].
  apply traced_bind; [apply traced_safeConsoleTime|intros _].
  apply traced_bind; [by apply traced_callBridge|intros ?]. traces.
Qed.

Lemma traced_clean P requestId st :
  traced api_call P
    (SteemApi.clean ENABLE_TIMING ambient stateCleaner requestId st).
Proof. unfold SteemApi.clean. traces. Qed.

(** The calls [getStateAsync] places, and what it leaves behind when it
    throws: the handler adds its own console record on top of the one
    [callBridge] wrote for the failing call, and places no call. *)
Lemma getStateAsync_requests P url observer ssr requestId w :
  (∀ c, content_call (parsePath url) observer = Some c → P c) →
  (∀ n, P (get_community n observer)) →
  (∀ a, P (get_profile a)) →
  P (get_trending_topics 12) →
  ∃ placed,
    requests (fst (getStateAsync url observer ssr requestId w))
    = (placed ++ requests w)%list
    ∧ (∀ c, c ∈ placed → P c)
    ∧ ∀ e, snd (getStateAsync url observer ssr requestId w) = Throw e →
        ∃ c earlier rest,
          placed = c :: earlier
          ∧ api_call c = inl e
          ∧ console (fst (getStateAsync url observer ssr requestId w))
            = console_error_getStateAsync e requestId url
                :: console_error_callBridge c e :: rest.
Proof.
  intros Hcontent Hcommunity Hprofile Htopics.
  unfold SteemApi.getStateAsync. cbv zeta.
  match goal with
  | |- context [try_catch ?m _] =>
      assert (Hbody : traced api_call P m)
  end.
  { apply traced_bind; [apply traced_emit|intros _].
    apply traced_bind;
      [by apply traced_load_content; [apply parsePath_wf|]|intros ?].
    apply traced_bind; [by apply traced_append_community|intros ?].
    apply traced_bind;
      [by apply traced_load_profile; [apply parsePath_wf|]|intros ?].
    apply traced_bind; [by apply traced_append_topics|intros ?].
    apply traced_clean. }
  unfold try_catch.
  destruct (Hbody w) as (placed & Hr & HP & Hthrow).
  match goal with
  | |- context [match ?m w with _ => _ end] => destruct (m w) as [w1 [s|e0]]
  end; cbn [fst snd] in *; exists placed.
  - split; [done|]. split; [done|]. by intros e [=].
  - destruct (Hthrow e0 eq_refl) as (c & earlier & rest & -> & He0 & Hcon).
    unfold SteemApi.on_error, bind, emit. cbv beta iota.
    destruct (String.eqb (message e0) "Network request failed");
      cbn [fst snd requests console];
      (split; [done|]); (split; [done|]);
      intros e [= <-]; exists c, earlier, rest; by rewrite Hcon.
Qed.

(** C3, as the code has it: whenever [getStateAsync] fails, the error it
    throws is the very error the transport handed to [callBridge] for the
    failing call, which is the last call this run placed, re-raised
    unchanged; the request id and the URL go to the console record the
    handler writes last, on top of the record [callBridge] wrote for
    that call and that error, not into the error. *)
Theorem failures_surface_unchanged url observer ssr requestId w e :
  snd (getStateAsync url observer ssr requestId w) = Throw e →
  ∃ c earlier rest,
    requests (fst (getStateAsync url observer ssr requestId w))
    = (c :: earlier ++ requests w)%list
    ∧ api_call c = inl e
    ∧ console (fst (getStateAsync url observer ssr requestId w))
      = console_error_getStateAsync e requestId url
          :: console_error_callBridge c e :: rest.
Proof.
  intros He.
  destruct (getStateAsync_requests (λ _, True) url observer ssr requestId w)
    as (placed & Hr & _ & Hthrow); try done.
  destruct (Hthrow e He) as (c & earlier & rest & -> & Hc & Hcon).
  by exists c, earlier, rest.
Qed.

(** C4, as the code has it: for a URL classified with no page, none of
    the calls [getStateAsync] places fetches content, and [getStateAsync]
    either returns the normalization of a snapshot whose [content] and
    [discussion_idx] are empty, or fails.  It fails exactly in full
    server-rendering mode when the profile fetch for the account derived
    from the tag fails, or the trending-topics fetch fails, and then
    throws that error. *)
Theorem unrecognised_path_outcome url observer ssr requestId w :
  page (parsePath url) = None →
  (∃ placed,
     requests (fst (getStateAsync url observer ssr requestId w))
     = (placed ++ requests w)%list
     ∧ ∀ c, c ∈ placed → content_fetch c = false)
  ∧
  match snd (getStateAsync url observer ssr requestId w) with
  | Ok s =>
      (∃ st, s = stateCleaner st ∧ content st = ∅ ∧ discussion_idx st = ∅)
      ∧ (ssr = true →
         (∀ a e, derived_account (parsePath url) = Some a → a ≠ "" →
                 api_call (get_profile a) ≠ inl e)
         ∧ ∀ e, api_call (get_trending_topics 12) ≠ inl e)
  | Throw e =>
      ssr = true
      ∧ ((∃ a, derived_account (parsePath url) = Some a ∧ a ≠ ""
               ∧ api_call (get_profile a) = inl e)
         ∨ api_call (get_trending_topics 12) = inl e)
  end.
Proof.
  intros Hnone. split.
  { destruct (getStateAsync_requests (λ c, content_fetch c = false) url
                observer ssr requestId w)
      as (placed & Hr & HP & _); try done; [|by exists placed].
    intros c. by rewrite (content_call_None _ _ Hnone). }
  change (ensures (getStateAsync url observer ssr requestId) w
            (λ _ r,
               match r with
               | Ok s =>
                   (∃ st, s = stateCleaner st ∧ content st = ∅
                          ∧ discussion_idx st = ∅)
                   ∧ (ssr = true →
                      (∀ a e, derived_account (parsePath url) = Some a →
                              a ≠ "" → api_call (get_profile a) ≠ inl e)
                      ∧ ∀ e, api_call (get_trending_topics 12) ≠ inl e)
               | Throw e =>
                   ssr = true
                   ∧ ((∃ a, derived_account (parsePath url) = Some a
                            ∧ a ≠ "" ∧ api_call (get_profile a) = inl e)
                      ∨ api_call (get_trending_topics 12) = inl e)
               end)).
  unfold SteemApi.getStateAsync.
  apply ensures_try_catch, ensures_bind, ensures_emit. intros w1 _ _.
  apply ensures_bind, ensures_load_content; [apply parsePath_wf| | |].
  - intros _.
    apply ensures_bind, ensures_append_community. intros w3 st3 [Hc3 Hd3].
    apply ensures_bind, ensures_load_profile; [apply parsePath_wf| |].
    + intros w4 st4 [Hc4 Hd4] Hprofile.
      apply ensures_bind, ensures_append_topics.
      * intros w5 st5 [Hc5 Hd5] Htopics. apply ensures_clean. intros w6.
        split; [|auto].
        exists st5. simpl in Hc3, Hd3. split; [done|]. split; congruence.
      * intros w5 e Hssr He. apply ensures_on_error. intros w6 _ _. auto.
    + intros w4 a e Hssr Ha Hne He. apply ensures_on_error. intros w5 _ _.
      split; [done|left]. eauto.
  - intros w2 st2 Hpage. done.
  - intros w2 c e Hc. by rewrite (content_call_None _ _ Hnone) in Hc.
Qed.

End Hydration.

(** * The theorems at sample inputs *)

Lemma loadPosts_keys_first_seen_sample :
  posts_reply backend_up "trending" "cats" None = inr sample_posts
  ∧ ∃ listing by_sort keys,
      snd (SteemApi.loadPosts true sample_ambient backend_up "trending"
             "cats" None false (Some "req-1") boot) = Ok listing
      ∧ listing_discussion_idx listing !! "cats" = Some by_sort
      ∧ by_sort !! "trending" = Some keys
      ∧ first_seen_order keys (SteemApi.post_key <$> sample_posts).
Proof.
  split; [reflexivity|].
  apply (loadPosts_keys_first_seen true sample_ambient backend_up).
  reflexivity.
Defined.

Lemma loadPosts_listing_shape_sample :
  posts_reply backend_up "blog" "@alice" None = inr sample_posts
  ∧ ∃ listing keys,
      snd (SteemApi.loadPosts true sample_ambient backend_up "blog"
             "@alice" None false (Some "req-1") boot) = Ok listing
      ∧ listing_discussion_idx listing
        = Js.mkObj {[ "@alice" := Js.mkObj {[ "blog" := keys ]} None ]} None
      ∧ (∀ k, k ∈ keys → is_Some (listing_content listing !! k))
      ∧ (∀ pre p suf,
           sample_posts = (pre ++ p :: suf)%list →
           (∀ q, q ∈ suf → SteemApi.post_key q ≠ SteemApi.post_key p) →
           listing_content listing !! SteemApi.post_key p = Some p)
      ∧ first_seen_order keys (SteemApi.post_key <$> sample_posts).
Proof.
  split; [reflexivity|].
  apply (loadPosts_listing_shape true sample_ambient backend_up);
    [done|done|reflexivity].
Defined.

Lemma loadPosts_proto_tag_has_no_entry_sample :
  posts_reply backend_up "trending" "__proto__" None = inr sample_posts
  ∧ ∃ listing keys,
      snd (SteemApi.loadPosts true sample_ambient backend_up "trending"
             "__proto__" None false (Some "req-1") boot) = Ok listing
      ∧ Js.own (listing_discussion_idx listing) = ∅
      ∧ Js.proto (listing_discussion_idx listing)
        = Some (Js.set "trending" keys ∅)
      ∧ first_seen_order keys (SteemApi.post_key <$> sample_posts).
Proof.
  split; [reflexivity|].
  apply (loadPosts_proto_tag_has_no_entry true sample_ambient backend_up).
  reflexivity.
Defined.

(** On the sample response the key list is alice/intro, bob/cats and the
    content keeps the second record of alice/intro. *)
Example loadPosts_sample_run :
  snd (SteemApi.loadPosts true sample_ambient backend_up "trending" "cats"
         None false (Some "req-1") boot)
  = Ok (mkListing
          (<["alice/intro" := mkPost "alice" "intro" "v2"]>
             (<["bob/cats" := mkPost "bob" "cats" "meow"]> ∅))
          (Js.mkObj
             (<["cats" := Js.mkObj
                            (<["trending" := ["alice/intro"; "bob/cats"]]> ∅)
                            None]> ∅)
             None)).
Proof. vm_compute. reflexivity. Qed.

(** The URL "trending/__proto__" is a posts page with the tag
    "__proto__": the snapshot's [discussion_idx] has no own property, the
    index sits on its prototype. *)
Example getStateAsync_proto_tag :
  parsePath "trending/__proto__"
  = mkPathInfo (Some posts) (Some "__proto__") (Some "trending") None
  ∧ match snd (SteemApi.getStateAsync true sample_ambient backend_up
                 sample_ifHive sample_cleaner "trending/__proto__" None
                 false (Some "req-1") boot) with
    | Ok s =>
        Js.own (discussion_idx s) = ∅
        ∧ Js.proto (discussion_idx s)
          = Some (Js.mkObj {[ "trending" := ["alice/intro"; "bob/cats"] ]}
                    None)
    | Throw _ => False
    end.
Proof. split; [reflexivity|]. vm_compute. by split. Qed.

(** The URL "@__proto__" is the page of the account "__proto__": in full
    server-rendering mode its profile becomes the prototype of
    [profiles]. *)
Example getStateAsync_proto_account :
  match snd (SteemApi.getStateAsync true sample_ambient backend_up
               sample_ifHive sample_cleaner "@__proto__" None true
               (Some "req-1") boot) with
  | Ok s =>
      Js.own (profiles s) = ∅
      ∧ Js.proto (profiles s) = Some (mkProfile (Some "__proto__") "")
  | Throw _ => False
  end.
Proof. vm_compute. by split. Qed.

Lemma profile_failure_fails_hydration_sample :
  derived_account (parsePath "@alice") = Some "alice"
  ∧ backend_no_profile (get_profile "alice") = inl remote_error
  ∧ ∃ e', snd (SteemApi.getStateAsync true sample_ambient backend_no_profile
                 sample_ifHive sample_cleaner "@alice" None true
                 (Some "req-1") boot) = Throw e'
          ∧ (e' = remote_error
             ∨ ∃ c, content_call (parsePath "@alice") None = Some c
                    ∧ backend_no_profile c = inl e').
Proof.
  split; [reflexivity|]. split; [reflexivity|].
  apply (profile_failure_fails_hydration true sample_ambient
           backend_no_profile sample_ifHive sample_cleaner
           "@alice" None (Some "req-1") boot "alice" remote_error);
    [reflexivity|done|reflexivity].
Defined.

(** C1 as stated fails: on an account page in full server-rendering mode
    with a failing profile endpoint, [getStateAsync] returns no snapshot;
    it throws the profile-fetch error. *)
Lemma profile_failure_is_not_swallowed :
  snd (SteemApi.getStateAsync true sample_ambient backend_no_profile
         sample_ifHive sample_cleaner "@alice" None true (Some "req-1") boot)
  = Throw remote_error.
Proof. vm_compute. reflexivity. Qed.



Lemma failures_surface_unchanged_sample :
  ∃ c earlier rest,
    requests
      (fst (SteemApi.getStateAsync true sample_ambient backend_unreachable
              sample_ifHive sample_cleaner "@bob/feed" None true
              (Some "req-1") boot))
    = (c :: earlier ++ requests boot)%list
    ∧ backend_unreachable c = inl network_error
    ∧ console
        (fst (SteemApi.getStateAsync true sample_ambient backend_unreachable
                sample_ifHive sample_cleaner "@bob/feed" None true
                (Some "req-1") boot))
      = console_error_getStateAsync network_error (Some "req-1") "@bob/feed"
          :: console_error_callBridge c network_error :: rest.
Proof.
  apply (failures_surface_unchanged true sample_ambient backend_unreachable
           sample_ifHive sample_cleaner "@bob/feed" None true
           (Some "req-1") boot network_error).
  vm_compute. reflexivity.
Defined.

(** C3 as stated fails: what [getStateAsync] throws is the transport's
    error itself, the value the backend call was rejected with. *)
Lemma original_error_is_rethrown :
  backend_unreachable (get_account_posts "feed" "bob" None)
  = inl network_error
  ∧ snd (SteemApi.getStateAsync true sample_ambient backend_unreachable
           sample_ifHive sample_cleaner "@bob/feed" None true
           (Some "req-1") boot) = Throw network_error.
Proof. split; vm_compute; reflexivity. Qed.

Lemma unrecognised_path_outcome_sample :
  page (parsePath "@alice/settings") = None
  ∧ (∃ placed,
       requests
         (fst (SteemApi.getStateAsync true sample_ambient backend_up
                 sample_ifHive sample_cleaner "@alice/settings" None true
                 (Some "req-1") boot))
       = (placed ++ requests boot)%list
       ∧ ∀ c, c ∈ placed → content_fetch c = false)
  ∧ match snd (SteemApi.getStateAsync true sample_ambient backend_up
                 sample_ifHive sample_cleaner "@alice/settings" None true
                 (Some "req-1") boot) with
    | Ok s =>
        (∃ st, s = sample_cleaner st ∧ content st = ∅
               ∧ discussion_idx st = ∅)
        ∧ (true = true →
           (∀ a e, derived_account (parsePath "@alice/settings") = Some a →
                   a ≠ "" → backend_up (get_profile a) ≠ inl e)
           ∧ ∀ e, backend_up (get_trending_topics 12) ≠ inl e)
    | Throw e =>
        true = true
        ∧ ((∃ a, derived_account (parsePath "@alice/settings") = Some a
                 ∧ a ≠ "" ∧ backend_up (get_profile a) = inl e)
           ∨ backend_up (get_trending_topics 12) = inl e)
    end.
Proof.
  split; [reflexivity|].
  apply (unrecognised_path_outcome true sample_ambient backend_up
           sample_ifHive sample_cleaner "@alice/settings" None true
           (Some "req-1") boot).
  reflexivity.
Defined.

(** C4 as stated fails: a URL classified with no page still makes
    [getStateAsync] fail in full server-rendering mode when the profile
    fetch for its account fails. *)
Lemma unrecognised_path_can_fail :
  page (parsePath "@alice/settings") = None
  ∧ snd (SteemApi.getStateAsync true sample_ambient backend_no_profile
           sample_ifHive sample_cleaner "@alice/settings" None true
           (Some "req-1") boot) = Throw remote_error.
Proof. split; vm_compute; reflexivity. Qed.

(** The classifications the testable properties list. *)
Example parsePath_hot_tag :
  parsePath "hot/funny-cats"
  = mkPathInfo (Some posts) (Some "funny-cats") (Some "hot") None.
Proof. reflexivity. Qed.

Example parsePath_thread :
  parsePath "funny-cats/@alice/abc123"
  = mkPathInfo (Some thread) (Some "funny-cats") None
      (Some ("@alice", "abc123")).
Proof. reflexivity. Qed.

Example parsePath_account_tab :
  parsePath "@alice/blog"
  = mkPathInfo (Some account) (Some "@alice") (Some "blog") None
  ∧ parsePath "@alice/settings" = mkPathInfo None (Some "@alice") None None.
Proof. split; reflexivity. Qed.

(** * Further properties of the timing registry *)

Lemma append_assoc (a b c : string) : (a +:+ b) +:+ c = a +:+ b +:+ c.
Proof.
  induction a as [|ch a IH]; [done|].
  change (String ch (a +:+ b) +:+ c = String ch (a +:+ b +:+ c)).
  change (String ch ((a +:+ b) +:+ c) = String ch (a +:+ b +:+ c)).
  by rewrite IH.
Qed.

Section RegistryUse.
Variable ambient : nat → Reading.

Lemma start_with_id label id w :
  id ≠ "" →
  ∃ w' t,
    TimingUtils.safeConsoleTime true ambient label (Some id) w
    = (w', Ok (Some (label +:+ "_" +:+ id)))
    ∧ activeTimers w' = <[label +:+ "_" +:+ id := t]> (activeTimers w)
    ∧ rpc_resets w' = rpc_resets w.
Proof.
  intros Hid.
  destruct (safeConsoleTime_on ambient label (Some id) w)
    as (w0 & w' & tok & t & Eg & E & Hreg & Hr).
  rewrite generateUniqueLabel_id in Eg by done. injection Eg as _ <-.
  eauto.
Qed.

Lemma stop_with_id label id w :
  id ≠ "" →
  ∃ w',
    TimingUtils.safeConsoleTimeEnd true ambient label (Some id) w
    = (w', Ok tt)
    ∧ activeTimers w'
      = delete (if bool_decide (is_Some (activeTimers w !! label))
                then label else label +:+ "_" +:+ id) (activeTimers w)
    ∧ rpc_resets w' = rpc_resets w.
Proof.
  intros Hid.
  destruct (safeConsoleTimeEnd_on ambient label (Some id) w)
    as (w0 & w' & tok & Eg & E & Hreg & Hr).
  rewrite generateUniqueLabel_id in Eg by done. injection Eg as _ <-.
  eauto.
Qed.

(** X1: a start followed by the stop with the same label and the same
    non-empty request id puts the registry back as it was, provided
    neither the label itself nor the derived label was registered. *)
Theorem start_stop_restores_registry label id w :
  id ≠ "" →
  activeTimers w !! label = None →
  activeTimers w !! (label +:+ "_" +:+ id) = None →
  activeTimers
    (fst (run_calls true ambient
            [Start label (Some id); Stop label (Some id)] w))
  = activeTimers w.
Proof.
  intros Hid Hraw Hkey.
  destruct (start_with_id label id w Hid) as (w1 & t & E1 & Hreg1 & _).
  destruct (stop_with_id label id w1 Hid) as (w2 & E2 & Hreg2 & _).
  rewrite run_calls_start. unfold bind. rewrite E1.
  rewrite run_calls_stop. unfold bind. rewrite E2. simpl.
  rewrite Hreg2, Hreg1.
  rewrite bool_decide_eq_false_2.
  - by apply delete_insert_id.
  - rewrite lookup_insert_ne by (intros H; symmetry in H;
                                  by apply append_ne_self in H).
    rewrite Hraw. by intros [? ?].
Qed.

(** X2: the label a start returns always stops its span, with or without
    a request id and whatever request id the stop is given: afterwards
    that label is no key of the registry and no other key has changed. *)
Theorem token_stops_its_span label r r' w :
  ∃ w1 tok,
    TimingUtils.safeConsoleTime true ambient label r w
    = (w1, Ok (Some tok))
    ∧ snd (TimingUtils.safeConsoleTimeEnd true ambient tok r' w1) = Ok tt
    ∧ activeTimers
        (fst (TimingUtils.safeConsoleTimeEnd true ambient tok r' w1))
      = delete tok (activeTimers w).
Proof.
  destruct (safeConsoleTime_on ambient label r w)
    as (w0 & w1 & tok & t & _ & E & Hreg & _).
  exists w1, tok. split; [done|].
  destruct (safeConsoleTimeEnd_on ambient tok r' w1)
    as (w2 & w3 & tok' & _ & E' & Hreg' & _).
  rewrite E'. split; [done|]. simpl. rewrite Hreg'.
  rewrite bool_decide_eq_true_2.
  - rewrite Hreg. apply delete_insert_eq.
  - rewrite Hreg, lookup_insert_eq. eauto.
Qed.

(** X3: stopping a timer that is not registered, neither under the label
    nor under the label derived from the request id, never throws: it
    leaves the registry as it is and writes one warning that names the
    derived label. *)
Theorem stop_of_missing_timer_warns label id w :
  id ≠ "" →
  activeTimers w !! label = None →
  activeTimers w !! (label +:+ "_" +:+ id) = None →
  TimingUtils.safeConsoleTimeEnd true ambient label (Some id) w
  = (mkWorld (activeTimers w) (ticks w) (rpc_resets w)
       (console_warn_timer (label +:+ "_" +:+ id) :: console w)
       (requests w), Ok tt).
Proof.
  intros Hid Hraw Hkey.
  unfold TimingUtils.safeConsoleTimeEnd, bind, TimingUtils.timers_has.
  cbv beta iota. rewrite bool_decide_eq_false_2 by (rewrite Hraw; by intros [? ?]).
  rewrite generateUniqueLabel_id by done. cbv beta iota.
  rewrite bool_decide_eq_false_2 by (rewrite Hkey; by intros [? ?]).
  reflexivity.
Qed.

(** X4: without a request id, a stop called with the base label does not
    find the span the start registered: it derives a label of its own,
    and unless that one repeats the label of the start, the span stays
    in the registry. *)
Theorem stop_by_base_label_misses_span label r w w1 tok w2 tok' :
  Js.truthy r = false →
  activeTimers w !! label = None →
  TimingUtils.safeConsoleTime true ambient label r w = (w1, Ok (Some tok)) →
  TimingUtils.generateUniqueLabel ambient label r w1 = (w2, Ok tok') →
  tok' ≠ tok →
  is_Some
    (activeTimers
       (fst (TimingUtils.safeConsoleTimeEnd true ambient label r w1))
       !! tok).
Proof.
  intros Hr Hraw Hstart Hgen Hne.
  destruct (safeConsoleTime_on ambient label r w)
    as (w0 & w1' & tok0 & t & Eg & E & Hreg & _).
  rewrite E in Hstart. injection Hstart as -> ->.
  assert (Hlab : label ≠ tok).
  { unfold TimingUtils.generateUniqueLabel in Eg. rewrite Hr in Eg.
    unfold bind, TimingUtils.read_ambient, ret in Eg. simpl in Eg.
    injection Eg as _ <-. apply append_ne_self. }
  destruct (safeConsoleTimeEnd_on ambient label r w1)
    as (w2' & w3 & tok2 & Eg2 & E2 & Hreg2 & _).
  rewrite Hgen in Eg2. injection Eg2 as _ <-.
  rewrite E2. simpl. rewrite Hreg2, Hreg.
  rewrite bool_decide_eq_false_2.
  - rewrite lookup_delete_ne by done. rewrite lookup_insert_eq. eauto.
  - rewrite lookup_insert_ne by done. rewrite Hraw. by intros [? ?].
Qed.

(** X5: a stop never throws and never adds a span: the registry after it
    is a part of the registry before it, smaller by at most one entry. *)
Theorem stop_removes_at_most_one flag label r w :
  snd (TimingUtils.safeConsoleTimeEnd flag ambient label r w) = Ok tt
  ∧ activeTimers
      (fst (TimingUtils.safeConsoleTimeEnd flag ambient label r w))
    ⊆ activeTimers w
  ∧ (size (activeTimers w)
     ≤ S (size (activeTimers
                  (fst (TimingUtils.safeConsoleTimeEnd flag ambient label r
                          w)))))%nat.
Proof.
  destruct flag; [|simpl; split; [done|split; [done|lia]]].
  destruct (safeConsoleTimeEnd_on ambient label r w)
    as (w0 & w' & tok & _ & E & Hreg & _).
  rewrite E. simpl. rewrite Hreg. split; [done|].
  split; [apply delete_subseteq|].
  generalize (if bool_decide (is_Some (activeTimers w !! label))
              then label else tok). intros k.
  rewrite map_size_delete.
  destruct (activeTimers w !! k); unfold id; simpl; lia.
Qed.

(** X6: a start never throws and never removes a span; starting again
    under a label and request id that are already open registers nothing
    new, so the active count stays. *)
Theorem start_adds_at_most_one label id w :
  id ≠ "" →
  let w1 := fst (TimingUtils.safeConsoleTime true ambient label (Some id) w) in
  let w2 := fst (TimingUtils.safeConsoleTime true ambient label (Some id) w1) in
  (∀ k, is_Some (activeTimers w !! k) → is_Some (activeTimers w1 !! k))
  ∧ (size (activeTimers w1) ≤ S (size (activeTimers w)))%nat
  ∧ size (activeTimers w2) = size (activeTimers w1).
Proof.
  intros Hid.
  destruct (start_with_id label id w Hid) as (w1 & t & E1 & Hreg1 & _).
  destruct (start_with_id label id w1 Hid) as (w2 & t' & E2 & Hreg2 & _).
  rewrite E1. cbn [fst]. rewrite E2. cbn [fst].
  rewrite Hreg2, Hreg1. repeat split.
  - intros k Hk. rewrite lookup_insert_is_Some.
    destruct (decide (label +:+ "_" +:+ id = k)); auto.
  - rewrite map_size_insert.
    destruct (activeTimers w !! _); unfold Datatypes.id; simpl; lia.
  - rewrite insert_insert_eq, !map_size_insert.
    by destruct (activeTimers w !! _).
Qed.

(** X7: [safeTimedExecution] around an operation that leaves the registry
    alone puts the registry back as it was, with or without a request
    id, provided the label its start derives was not registered. *)
Theorem safeTimedExecution_restores_registry (A : Type) label (fn : M A)
    r w w1 tok :
  (∀ w', activeTimers (fst (fn w')) = activeTimers w') →
  TimingUtils.safeConsoleTime true ambient label r w = (w1, Ok (Some tok)) →
  activeTimers w !! tok = None →
  activeTimers
    (fst (TimingUtils.safeTimedExecution true ambient label fn r w))
  = activeTimers w.
Proof.
  intros Hfn E Hfresh.
  destruct (safeConsoleTime_on ambient label r w)
    as (w0 & w1' & tok0 & t & _ & E0 & Hreg & _).
  rewrite E in E0. injection E0 as <- <-.
  unfold TimingUtils.safeTimedExecution. cbn [negb]. unfold bind.
  rewrite E. cbn [Js.interp]. unfold try_finally.
  pose proof (Hfn w1) as Hkeep. destruct (fn w1) as [w2 res].
  cbv beta iota. simpl in Hkeep.
  destruct (safeConsoleTimeEnd_on ambient tok None w2)
    as (w2' & w3 & tok' & _ & E' & Hreg' & _).
  rewrite E'. simpl. rewrite Hreg', Hkeep, Hreg.
  rewrite bool_decide_eq_true_2 by (rewrite lookup_insert_eq; eauto).
  by apply delete_insert_id.
Qed.

(** X8: the derived label does not tell the base label from the request
    id: a span started under [(l_x, y)] has the key of [(l, x_y)], so a
    stop called with [(l, x_y)] removes it. *)
Theorem labels_of_distinct_pairs_collide l x y w :
  y ≠ "" →
  activeTimers w !! l = None →
  let w1 := fst (TimingUtils.safeConsoleTime true ambient
                   (l +:+ "_" +:+ x) (Some y) w) in
  let key := l +:+ "_" +:+ x +:+ "_" +:+ y in
  is_Some (activeTimers w1 !! key)
  ∧ activeTimers
      (fst (TimingUtils.safeConsoleTimeEnd true ambient l
              (Some (x +:+ "_" +:+ y)) w1)) !! key = None.
Proof.
  intros Hy Hraw.
  assert (Hkey : (l +:+ "_" +:+ x) +:+ "_" +:+ y
                 = l +:+ "_" +:+ x +:+ "_" +:+ y).
  { by rewrite !append_assoc. }
  assert (Hxy : x +:+ "_" +:+ y ≠ "").
  { destruct x; discriminate. }
  destruct (start_with_id (l +:+ "_" +:+ x) y w Hy)
    as (w1 & t & E1 & Hreg1 & _).
  destruct (stop_with_id l (x +:+ "_" +:+ y) w1 Hxy) as (w2 & E2 & Hreg2 & _).
  rewrite E1. cbn [fst]. rewrite E2. cbn [fst].
  rewrite Hreg2, Hreg1, Hkey. split.
  - rewrite lookup_insert_eq. eauto.
  - rewrite bool_decide_eq_false_2; [apply lookup_delete_eq|].
    rewrite lookup_insert_ne by (intros H; symmetry in H;
                                  by apply append_ne_self in H).
    rewrite Hraw. by intros [? ?].
Qed.

End RegistryUse.

Lemma start_stop_restores_registry_sample :
  activeTimers
    (fst (run_calls true sample_ambient
            [Start "timing_stateCleaner" (Some "req-1");
             Stop "timing_stateCleaner" (Some "req-1")] boot))
  = activeTimers boot.
Proof.
  apply (start_stop_restores_registry sample_ambient "timing_stateCleaner"
           "req-1" boot); [done|reflexivity|reflexivity].
Defined.

Lemma stop_of_missing_timer_warns_sample :
  TimingUtils.safeConsoleTimeEnd true sample_ambient "timing_stateCleaner"
    (Some "req-1") boot
  = (mkWorld ∅ 0 0 [console_warn_timer "timing_stateCleaner_req-1"] [],
     Ok tt).
Proof.
  apply (stop_of_missing_timer_warns sample_ambient "timing_stateCleaner"
           "req-1" boot); [done|reflexivity|reflexivity].
Defined.

Lemma stop_by_base_label_misses_span_sample :
  is_Some
    (activeTimers
       (fst (TimingUtils.safeConsoleTimeEnd true sample_ambient "render" None
               (fst (TimingUtils.safeConsoleTime true sample_ambient "render"
                       None boot))))
       !! "render_1762095600000_k3v9x2m1q").
Proof.
  apply (stop_by_base_label_misses_span sample_ambient "render" None boot
           (fst (TimingUtils.safeConsoleTime true sample_ambient "render"
                   None boot))
           "render_1762095600000_k3v9x2m1q"
           (fst (TimingUtils.generateUniqueLabel sample_ambient "render" None
                   (fst (TimingUtils.safeConsoleTime true sample_ambient
                           "render" None boot))))
           "render_1762095600002_k3v9x2m1q");
    [reflexivity|reflexivity|reflexivity|reflexivity|done].
Defined.

Lemma start_adds_at_most_one_sample :
  let w1 := fst (TimingUtils.safeConsoleTime true sample_ambient "render"
                   (Some "req-1") boot) in
  let w2 := fst (TimingUtils.safeConsoleTime true sample_ambient "render"
                   (Some "req-1") w1) in
  (∀ k, is_Some (activeTimers boot !! k) → is_Some (activeTimers w1 !! k))
  ∧ (size (activeTimers w1) ≤ S (size (activeTimers boot)))%nat
  ∧ size (activeTimers w2) = size (activeTimers w1).
Proof.
  apply (start_adds_at_most_one sample_ambient "render" "req-1" boot). done.
Defined.

Lemma safeTimedExecution_restores_registry_sample :
  activeTimers
    (fst (TimingUtils.safeTimedExecution true sample_ambient "render"
            (ret 5%nat) None boot))
  = activeTimers boot.
Proof.
  apply (safeTimedExecution_restores_registry sample_ambient nat "render"
           (ret 5%nat) None boot
           (fst (TimingUtils.safeConsoleTime true sample_ambient "render"
                   None boot))
           "render_1762095600000_k3v9x2m1q");
    [done|reflexivity|reflexivity].
Defined.

Lemma labels_of_distinct_pairs_collide_sample :
  let w1 := fst (TimingUtils.safeConsoleTime true sample_ambient
                   ("timing_loadPosts_hot" +:+ "_" +:+ "a") (Some "b") boot) in
  let key := "timing_loadPosts_hot" +:+ "_" +:+ "a" +:+ "_" +:+ "b" in
  is_Some (activeTimers w1 !! key)
  ∧ activeTimers
      (fst (TimingUtils.safeConsoleTimeEnd true sample_ambient
              "timing_loadPosts_hot" (Some ("a" +:+ "_" +:+ "b")) w1))
      !! key = None.
Proof.
  apply (labels_of_distinct_pairs_collide sample_ambient
           "timing_loadPosts_hot" "a" "b" boot); [done|reflexivity].
Defined.

(** * Further properties of the route classifier *)

Lemma split_nonempty c s : Js.split c s ≠ [].
Proof.
  destruct s as [|a s]; [done|]. simpl.
  destruct (Ascii.eqb a c); [done|]. by destruct (Js.split c s).
Qed.

Lemma split_other c a s :
  Ascii.eqb a c = false →
  Js.split c (String a s)
  = String a (hd "" (Js.split c s)) :: tl (Js.split c s).
Proof.
  intros H. simpl. rewrite H.
  pose proof (split_nonempty c s). by destruct (Js.split c s).
Qed.

Lemma split_segment c s : has_char c s = false → Js.split c s = [s].
Proof.
  induction s as [|a s IH]; [done|]. simpl.
  intros [Ha Hs]%orb_false_iff.
  rewrite Ha. by rewrite (IH Hs).
Qed.

Lemma split_at c a b :
  has_char c a = false →
  Js.split c (a +:+ String c b) = a :: Js.split c b.
Proof.
  induction a as [|d a IH]; intros Ha.
  - change ("" +:+ String c b) with (String c b). cbn [Js.split].
    by rewrite Ascii.eqb_refl.
  - cbn [has_char] in Ha. apply orb_false_iff in Ha as [Hd Ha].
    change (String d a +:+ String c b) with (String d (a +:+ String c b)).
    rewrite (split_other _ _ _ Hd), (IH Ha). done.
Qed.

Lemma has_char_app c a b :
  has_char c (a +:+ b) = has_char c a || has_char c b.
Proof.
  induction a as [|d a IH]; [done|].
  change (String d a +:+ b) with (String d (a +:+ b)). simpl.
  by rewrite IH, orb_assoc.
Qed.

Lemma ends_with_segment c s : has_char c s = false → Js.ends_with c s = false.
Proof.
  induction s as [|a s IH]; [done|]. simpl.
  intros [Ha Hs]%orb_false_iff. destruct s; [done|]. by apply IH.
Qed.

Lemma starts_with_segment c s :
  has_char c s = false → Js.starts_with c s = false.
Proof. destruct s; [done|]. simpl. by intros [? ?]%orb_false_iff. Qed.

Lemma ends_with_app c a b :
  b ≠ "" → Js.ends_with c (a +:+ b) = Js.ends_with c b.
Proof.
  intros Hb. induction a as [|d a IH]; [done|].
  change (String d a +:+ b) with (String d (a +:+ b)).
  simpl. rewrite IH. destruct (a +:+ b) eqn:E; [|done].
  destruct a; [|done]. by destruct b.
Qed.

Lemma drop_last_snoc a c : Js.drop_last (a +:+ String c "") = a.
Proof.
  induction a as [|d a IH]; [done|].
  change (String d a +:+ ?s) with (String d (a +:+ s)). simpl.
  rewrite IH. by destruct a.
Qed.

Lemma hd_split_query c u q :
  hd "" (Js.split c (u +:+ String c q)) = hd "" (Js.split c u).
Proof.
  induction u as [|a u IH].
  - change ("" +:+ String c q) with (String c q). simpl.
    by rewrite Ascii.eqb_refl.
  - change (String a u +:+ ?s) with (String a (u +:+ s)).
    destruct (Ascii.eqb a c) eqn:E.
    + simpl. by rewrite E.
    + rewrite !(split_other _ _ _ E). simpl. by rewrite IH.
Qed.

(** X9: the query string does not take part in the classification:
    whatever follows the first question mark is dropped. *)
Theorem parsePath_ignores_query url q :
  parsePath (url +:+ "?" +:+ q) = parsePath url.
Proof.
  unfold parsePath.
  change (url +:+ "?" +:+ q) with (url +:+ String "?" q).
  by rewrite hd_split_query.
Qed.

(** X10: what a classification holds, by page kind.  A posts page has a
    sort out of [sorts] and a tag; an account page has a tag that begins
    with "@" and a sort out of [acct_tabs]; a thread has a tag and a key
    whose first part begins with "@", and no sort; the others have
    neither sort nor key. *)
Theorem parsePath_fields url :
  match page (parsePath url) with
  | Some posts =>
      ∃ s t, sort (parsePath url) = Some s ∧ s ∈ sorts
             ∧ tag (parsePath url) = Some t ∧ key (parsePath url) = None
  | Some account =>
      ∃ s t, sort (parsePath url) = Some s ∧ s ∈ acct_tabs
             ∧ tag (parsePath url) = Some t ∧ Js.starts_with "@" t = true
             ∧ key (parsePath url) = None
  | Some thread =>
      ∃ t k0 k1, tag (parsePath url) = Some t
                 ∧ key (parsePath url) = Some (k0, k1)
                 ∧ Js.starts_with "@" k0 = true
                 ∧ sort (parsePath url) = None
  | None => sort (parsePath url) = None ∧ key (parsePath url) = None
  end.
Proof.
  unfold parsePath. cbv zeta.
  repeat match goal with
         | |- context [if ?b then _ else _] => destruct b eqn:?
         end; simpl;
    repeat match goal with
           | H : _ && _ = true |- _ => apply andb_true_iff in H as [? ?]
           | H : Js.includes _ _ = true |- _ => apply includes_elem_of in H
           end;
    try (split; reflexivity);
    try (eexists _, _; repeat split; eauto; fail);
    try (eexists _, _, _; repeat split; eauto; fail).
  all: eexists "blog", _; repeat split; eauto;
    unfold acct_tabs; repeat constructor.
Qed.

Lemma ends_with_cons c d r :
  r ≠ "" → Js.ends_with c (String d r) = Js.ends_with c r.
Proof. by destruct r. Qed.

Lemma starts_with_app c a b :
  a ≠ "" → Js.starts_with c (a +:+ b) = Js.starts_with c a.
Proof. by destruct a. Qed.

Lemma app_not_empty a d b : a +:+ String d b ≠ "".
Proof. by destruct a. Qed.

(** Puts [parsePath u] in the form of its rule chain over the segments
    of [u], for a path that needs no trimming. *)
Ltac canonical Hq Hs He Hn :=
  unfold parsePath; cbv zeta;
  rewrite (split_segment "?" _ Hq); cbn [hd];
  rewrite Hs; cbv iota; rewrite He; cbv iota;
  rewrite (proj2 (String.eqb_neq _ _) Hn); cbv iota.

Lemma sort_keyword_facts s :
  s ∈ sorts →
  has_char "/" s = false ∧ has_char "?" s = false
  ∧ Js.starts_with "/" s = false ∧ s ≠ "" ∧ Js.includes sorts s = true.
Proof.
  intros Hs. unfold sorts in Hs.
  repeat (apply elem_of_cons in Hs as [->|Hs]; [by repeat split|]).
  by apply elem_of_nil in Hs.
Qed.

(** X11: a sort keyword followed by a slash and a tag classifies as the
    posts listing of that tag under that sort, for every tag without
    slash or question mark, the empty one included. *)
Theorem parsePath_sort_and_tag s t :
  s ∈ sorts →
  segment t →
  parsePath (s +:+ "/" +:+ t)
  = mkPathInfo (Some posts) (Some t) (Some s) None.
Proof.
  intros Hs [Ht Hq].
  destruct t as [|c t].
  { unfold sorts in Hs.
    repeat (apply elem_of_cons in Hs as [->|Hs]; [reflexivity|]).
    by apply elem_of_nil in Hs. }
  destruct (sort_keyword_facts s Hs) as (Hs1 & Hs2 & Hs3 & Hs4 & Hs5).
  change (s +:+ "/" +:+ String c t) with (s +:+ String "/" (String c t)).
  assert (Hq' : has_char "?" (s +:+ String "/" (String c t)) = false).
  { rewrite has_char_app, Hs2. cbn [has_char orb]. exact Hq. }
  assert (Hst : Js.starts_with "/" (s +:+ String "/" (String c t)) = false).
  { by rewrite starts_with_app. }
  assert (Hen : Js.ends_with "/" (s +:+ String "/" (String c t)) = false).
  { rewrite ends_with_app by done. rewrite ends_with_cons by done.
    by apply ends_with_segment. }
  canonical Hq' Hst Hen (app_not_empty s "/" (String c t)).
  rewrite (split_at "/" s _ Hs1), (split_segment "/" _ Ht).
  cbn [length nth Nat.eqb andb]. by rewrite Hs5.
Qed.

Lemma parsePath_sort_and_tag_sample :
  parsePath ("payout" +:+ "/" +:+ "@alice")
  = mkPathInfo (Some posts) (Some "@alice") (Some "payout") None.
Proof.
  apply (parsePath_sort_and_tag "payout" "@alice");
    [unfold sorts; repeat constructor|split; reflexivity].
Defined.

(** X12: category, "@author" and permlink, separated by slashes, classify
    as a thread with the category as tag and ("@author", permlink) as
    key, whatever the category (a sort keyword too), for segments
    without slash or question mark, category and permlink not empty. *)
Theorem parsePath_thread_rule c a p :
  segment c → segment a → segment p →
  c ≠ "" → p ≠ "" →
  parsePath (c +:+ "/@" +:+ a +:+ "/" +:+ p)
  = mkPathInfo (Some thread) (Some c) None (Some ("@" +:+ a, p)).
Proof.
  intros [Hc Hcq] [Ha Haq] [Hp Hpq] Hcne Hpne.
  change (c +:+ "/@" +:+ a +:+ "/" +:+ p)
    with (c +:+ String "/" (String "@" a +:+ String "/" p)).
  assert (Ha' : has_char "/" (String "@" a) = false) by done.
  assert (Hq' : has_char "?"
                  (c +:+ String "/" (String "@" a +:+ String "/" p)) = false).
  { rewrite has_char_app, Hcq. cbn [has_char orb].
    change (String "@" a +:+ String "/" p)
      with (String "@" (a +:+ String "/" p)). cbn [has_char].
    rewrite has_char_app, Haq. cbn [has_char orb]. by rewrite Hpq. }
  assert (Hst : Js.starts_with "/"
                  (c +:+ String "/" (String "@" a +:+ String "/" p)) = false).
  { rewrite starts_with_app by done. by apply starts_with_segment. }
  assert (Hen : Js.ends_with "/"
                  (c +:+ String "/" (String "@" a +:+ String "/" p)) = false).
  { rewrite ends_with_app by done.
    rewrite ends_with_cons by apply app_not_empty.
    rewrite ends_with_app by done.
    rewrite ends_with_cons by done. by apply ends_with_segment. }
  canonical Hq' Hst Hen
    (app_not_empty c "/" (String "@" a +:+ String "/" p)).
  rewrite (split_at "/" c _ Hc), (split_at "/" (String "@" a) _ Ha'),
    (split_segment "/" _ Hp).
  reflexivity.
Qed.

Lemma parsePath_thread_rule_sample :
  parsePath ("hot" +:+ "/@" +:+ "alice" +:+ "/" +:+ "abc123")
  = mkPathInfo (Some thread) (Some "hot") None
      (Some ("@" +:+ "alice", "abc123")).
Proof.
  apply (parsePath_thread_rule "hot" "alice" "abc123");
    try (split; reflexivity); done.
Defined.

(** X13: "@name" alone classifies as the account page with sort "blog";
    "@name/tab" classifies as the account page with that sort when the
    tab is one of [acct_tabs], and otherwise, for a tab that is not
    empty, as no page at all, with the tag set all the same. *)
Theorem parsePath_account_rules a tab :
  segment a → segment tab →
  parsePath ("@" +:+ a)
  = mkPathInfo (Some account) (Some ("@" +:+ a)) (Some "blog") None
  ∧ (tab ≠ "" →
     parsePath ("@" +:+ a +:+ "/" +:+ tab)
     = if Js.includes acct_tabs tab
       then mkPathInfo (Some account) (Some ("@" +:+ a)) (Some tab) None
       else mkPathInfo None (Some ("@" +:+ a)) None None).
Proof.
  intros [Ha Haq] [Ht Htq].
  assert (Ha' : has_char "/" (String "@" a) = false) by done.
  assert (Haq' : has_char "?" (String "@" a) = false) by done.
  split.
  - change ("@" +:+ a) with (String "@" a).
    assert (Hen : Js.ends_with "/" (String "@" a) = false)
      by by apply ends_with_segment.
    assert (Hne : String "@" a ≠ "") by done.
    canonical Haq' (eq_refl : Js.starts_with "/" (String "@" a) = false)
      Hen Hne.
    rewrite (split_segment "/" _ Ha'). reflexivity.
  - intros Htab.
    change ("@" +:+ a +:+ "/" +:+ tab) with (String "@" a +:+ String "/" tab).
    assert (Hq' : has_char "?" (String "@" a +:+ String "/" tab) = false).
    { rewrite has_char_app, Haq'. cbn [has_char orb]. exact Htq. }
    assert (Hen : Js.ends_with "/" (String "@" a +:+ String "/" tab) = false).
    { rewrite ends_with_app by done. rewrite ends_with_cons by done.
      by apply ends_with_segment. }
    canonical Hq'
      (eq_refl : Js.starts_with "/" (String "@" a +:+ String "/" tab) = false)
      Hen (app_not_empty (String "@" a) "/" tab).
    rewrite (split_at "/" (String "@" a) _ Ha'), (split_segment "/" _ Ht).
    cbn [length nth Nat.eqb andb].
    change (Js.includes sorts (String "@" a)) with false.
    cbn [Js.starts_with]. reflexivity.
Qed.

Lemma parsePath_account_rules_sample :
  parsePath ("@" +:+ "alice")
  = mkPathInfo (Some account) (Some ("@" +:+ "alice")) (Some "blog") None
  ∧ ("followers" ≠ "" →
     parsePath ("@" +:+ "alice" +:+ "/" +:+ "followers")
     = if Js.includes acct_tabs "followers"
       then mkPathInfo (Some account) (Some ("@" +:+ "alice"))
              (Some "followers") None
       else mkPathInfo None (Some ("@" +:+ "alice")) None None).
Proof.
  apply (parsePath_account_rules "alice" "followers"); split; reflexivity.
Defined.

(** X14: one leading slash and one trailing slash around a path make no
    difference to its classification, for a path that neither begins nor
    ends with a slash and has no query string. *)
Theorem parsePath_ignores_outer_slashes u :
  has_char "?" u = false →
  Js.starts_with "/" u = false →
  Js.ends_with "/" u = false →
  parsePath ("/" +:+ u) = parsePath u
  ∧ parsePath (u +:+ "/") = parsePath u
  ∧ parsePath ("/" +:+ u +:+ "/") = parsePath u.
Proof.
  intros Hq Hs He.
  destruct (decide (u = "")) as [->|Hne]; [by repeat split|].
  assert (Hq1 : has_char "?" (String "/" u) = false) by done.
  assert (Hq2 : has_char "?" (u +:+ "/") = false).
  { by rewrite has_char_app, Hq. }
  assert (Hq3 : has_char "?" (String "/" (u +:+ "/")) = false) by done.
  assert (He2 : Js.ends_with "/" (u +:+ "/") = true).
  { by rewrite ends_with_app. }
  assert (Hs2 : Js.starts_with "/" (u +:+ "/") = false).
  { by rewrite starts_with_app. }
  change ("/" +:+ u +:+ "/") with (String "/" (u +:+ "/")).
  change ("/" +:+ u) with (String "/" u).
  unfold parsePath. cbv zeta.
  rewrite (split_segment "?" _ Hq), (split_segment "?" _ Hq1),
    (split_segment "?" _ Hq2), (split_segment "?" _ Hq3).
  cbn [hd Js.starts_with Js.slice1]. rewrite Ascii.eqb_refl. cbv iota.
  rewrite Hs2, Hs, He, He2. cbv iota.
  change (u +:+ "/") with (u +:+ String "/" "").
  rewrite drop_last_snoc. done.
Qed.

Lemma parsePath_ignores_outer_slashes_sample :
  parsePath ("/" +:+ "@alice/feed") = parsePath "@alice/feed"
  ∧ parsePath ("@alice/feed" +:+ "/") = parsePath "@alice/feed"
  ∧ parsePath ("/" +:+ "@alice/feed" +:+ "/") = parsePath "@alice/feed".
Proof.
  apply (parsePath_ignores_outer_slashes "@alice/feed"); reflexivity.
Defined.

(** * Further properties of the posts aggregation *)

(** A composite key holds a slash, so [content[key] = post] always sets
    an own property. *)
Lemma post_key_own post : SteemApi.post_key post ≠ "__proto__".
Proof.
  intros H.
  assert (Hslash : has_char "/" (SteemApi.post_key post) = true).
  { unfold SteemApi.post_key. rewrite !has_char_app. cbn [has_char].
    simpl. by rewrite orb_true_r. }
  by rewrite H in Hslash.
Qed.

Lemma collected_records posts k p :
  (fold_left SteemApi.collect_post posts (∅, [])).1 !! k = Some p →
  p ∈ posts ∧ SteemApi.post_key p = k.
Proof.
  revert k p. induction posts as [|q posts IH] using rev_ind; intros k p.
  - simpl. by rewrite lookup_empty.
  - rewrite collect_snoc.
    destruct (fold_left _ posts _) as [content keys]. simpl in *.
    destruct (decide (SteemApi.post_key q = k)) as [<-|Hne].
    + rewrite lookup_insert_eq. intros [= <-]. split; [|done].
      apply elem_of_app. right. by left.
    + rewrite lookup_insert_ne by done. intros H.
      destruct (IH _ _ H) as [Hin Hk]. split; [|done].
      apply elem_of_app. by left.
Qed.

Section AggregationMore.
Variable ENABLE_TIMING : bool.
Variable ambient : nat → Reading.
Variable api_call : ∀ c : BridgeCall, JsError + Reply c.

(** What [loadPosts] returns is decided by the answer to one call. *)
Lemma loadPosts_result sort tag observer ssr requestId w :
  snd (SteemApi.loadPosts ENABLE_TIMING ambient api_call sort tag observer
         ssr requestId w)
  = match posts_reply api_call sort tag observer with
    | inr ps => Ok (listing_of sort tag ps)
    | inl e => Throw e
    end.
Proof.
  change (ensures (SteemApi.loadPosts ENABLE_TIMING ambient api_call sort tag
                     observer ssr requestId) w
            (λ _ r, r = match posts_reply api_call sort tag observer with
                        | inr ps => Ok (listing_of sort tag ps)
                        | inl e => Throw e
                        end)).
  apply ensures_loadPosts.
  - intros _ ps -> _. done.
  - intros _ e -> _. done.
Qed.

(** X15: [loadPosts] places one call and its outcome is decided by the
    answer.  A tag "@name" with a name that is not empty asks for the
    posts of the account [name], the "@" stripped; every other tag, "@"
    alone too, asks for the ranked posts of the tag.  An error is thrown
    on as it is; a sequence of posts gives the listing built from it,
    its key list assigned under the tag as given and the sort. *)
Theorem loadPosts_routing sort tag observer ssr requestId w :
  snd (SteemApi.loadPosts ENABLE_TIMING ambient api_call sort tag observer
         ssr requestId w)
  = match
      (if Js.starts_with "@" tag && negb (String.eqb (Js.slice1 tag) "")
       then api_call (get_account_posts sort (Js.slice1 tag) observer)
       else api_call (get_ranked_posts sort tag observer))
    with
    | inr ps => Ok (listing_of sort tag ps)
    | inl e => Throw e
    end.
Proof. apply loadPosts_result. Qed.

(** X16: in a listing returned by [loadPosts], the keys of [content] are
    exactly the keys of the list read at [discussion_idx[tag][sort]], so
    [content] has as many entries as the list, and at most as many as the
    response has posts (none for an empty response); every record of
    [content] is a post of the response, stored under its own key. *)
Theorem loadPosts_content_matches_keys sort tag observer ssr requestId w
    posts :
  posts_reply api_call sort tag observer = inr posts →
  ∃ listing keys,
    snd (SteemApi.loadPosts ENABLE_TIMING ambient api_call sort tag observer
           ssr requestId w) = Ok listing
    ∧ (∃ by_sort, listing_discussion_idx listing !! tag = Some by_sort
                  ∧ by_sort !! sort = Some keys)
    ∧ (∀ k, is_Some (listing_content listing !! k) ↔ k ∈ keys)
    ∧ size (listing_content listing) = length keys
    ∧ (length keys ≤ length posts)%nat
    ∧ (∀ k p, listing_content listing !! k = Some p →
              p ∈ posts ∧ SteemApi.post_key p = k).
Proof.
  intros Hposts. rewrite loadPosts_result, Hposts.
  pose proof (collected_keys posts) as (Hnd & Hin & _).
  pose proof (collected_content posts) as [Hdom _].
  pose proof (collected_records posts) as Hrec.
  unfold listing_of. destruct (fold_left _ posts _) as [content keys].
  simpl in *. eexists _, keys. split; [reflexivity|]. simpl.
  split; [eexists; split; apply obj_lookup_set|].
  assert (Hiff : ∀ k, is_Some (content !! k) ↔ k ∈ keys).
  { intros k. by rewrite Hdom, Hin. }
  split; [done|]. split; [|split; [|done]].
  - rewrite <- size_dom.
    assert (dom content = list_to_set keys) as ->.
    { apply set_eq. intros k.
      by rewrite elem_of_dom, elem_of_list_to_set, Hiff. }
    by apply size_list_to_set.
  - rewrite <- (length_fmap SteemApi.post_key posts).
    apply submseteq_length, NoDup_submseteq; [done|].
    intros k. apply Hin.
Qed.

End AggregationMore.

Lemma loadPosts_content_matches_keys_sample :
  ∃ listing keys,
    snd (SteemApi.loadPosts true sample_ambient backend_up "hot" "" None
           false (Some "req-1") boot) = Ok listing
    ∧ (∃ by_sort, listing_discussion_idx listing !! "" = Some by_sort
                  ∧ by_sort !! "hot" = Some keys)
    ∧ (∀ k, is_Some (listing_content listing !! k) ↔ k ∈ keys)
    ∧ size (listing_content listing) = length keys
    ∧ (length keys ≤ length sample_posts)%nat
    ∧ (∀ k p, listing_content listing !! k = Some p →
              p ∈ sample_posts ∧ SteemApi.post_key p = k).
Proof.
  apply (loadPosts_content_matches_keys true sample_ambient backend_up).
  reflexivity.
Defined.

(** * Further properties of the state assembler *)

Lemma snd_bind {A B} (m : M A) (f : A → M B) w :
  snd (bind m f w)
  = match snd (m w) with
    | Ok a => snd (f a (fst (m w)))
    | Throw e => Throw e
    end.
Proof. unfold bind. by destruct (m w) as [w' [a|e]]. Qed.

Section Outcome.
Variable ENABLE_TIMING : bool.
Variable ambient : nat → Reading.
Variable api_call : ∀ c : BridgeCall, JsError + Reply c.
Variable ifHive : string → bool.
Variable stateCleaner : State → State.

Lemma load_content_result p observer ssr requestId st w :
  path_wf p →
  snd (SteemApi.load_content ENABLE_TIMING ambient api_call p observer ssr
         requestId st w)
  = content_step api_call p observer st.
Proof.
  intros Hwf.
  change (ensures (SteemApi.load_content ENABLE_TIMING ambient api_call p
                     observer ssr requestId st) w
            (λ _ r, r = content_step api_call p observer st)).
  unfold SteemApi.load_content, content_step, path_wf in *.
  destruct (page p) as [[]|]; [| | |done].
  - apply ensures_bind, ensures_start. intros w1 _ _.
    apply ensures_bind. unfold ensures at 1.
    rewrite loadPosts_result.
    destruct (posts_reply _ _ _ _) as [e|ps]; [done|].
    apply ensures_bind, ensures_stop. intros w2 _. done.
  - destruct Hwf as [[k0 k1] ->]. simpl.
    apply ensures_bind, ensures_ret. apply ensures_bind, ensures_ret.
    apply ensures_bind, ensures_start. intros w1 _ _.
    apply ensures_bind. unfold SteemApi.loadThread.
    apply ensures_bind, ensures_start. intros w2 _ _.
    apply ensures_bind, ensures_callBridge.
    + intros d ? -> _. apply ensures_bind, ensures_stop. intros w3 _.
      apply ensures_ret. apply ensures_bind, ensures_stop. intros w4 _.
      done.
    + intros e w3 -> _. done.
  - apply ensures_bind, ensures_start. intros w1 _ _.
    apply ensures_bind. unfold ensures at 1.
    rewrite loadPosts_result.
    destruct (posts_reply _ _ _ _) as [e|ps]; [done|].
    apply ensures_bind, ensures_stop. intros w2 _. done.
Qed.

Lemma append_community_result p observer requestId st w :
  snd (SteemApi.append_community ENABLE_TIMING ambient api_call ifHive p
         observer requestId st w)
  = Ok (community_step api_call ifHive p observer st).
Proof.
  change (ensures (SteemApi.append_community ENABLE_TIMING ambient api_call
                     ifHive p observer requestId st) w
            (λ _ r, r = Ok (community_step api_call ifHive p observer st))).
  unfold SteemApi.append_community, community_step.
  destruct (_ && _); [|done].
  apply ensures_try_catch, ensures_bind, ensures_start. intros w1 _ _.
  apply ensures_bind, ensures_callBridge.
  - intros d ? -> _. apply ensures_bind, ensures_stop. intros w2 _. done.
  - intros e w2 -> _. done.
Qed.

Lemma load_profile_result p ssr requestId st w :
  path_wf p →
  snd (SteemApi.load_profile ENABLE_TIMING ambient api_call p ssr requestId
         st w)
  = profile_step api_call p ssr st.
Proof.
  intros Hwf.
  change (ensures (SteemApi.load_profile ENABLE_TIMING ambient api_call p ssr
                     requestId st) w
            (λ _ r, r = profile_step api_call p ssr st)).
  unfold SteemApi.load_profile, profile_step.
  apply ensures_bind. unfold ensures at 1.
  rewrite (profile_account_run _ _ Hwf). cbn [fst snd].
  destruct (derived_account p) as [a|]; cbn [Js.truthy Js.interp];
    [|by destruct ssr].
  destruct (ssr && negb (String.eqb a "")); [|done].
  apply ensures_bind, ensures_start. intros w1 _ _.
  apply ensures_bind, ensures_callBridge.
  - intros d ? -> _. apply ensures_bind, ensures_stop. intros w2 _.
    destruct d as [pr|]; [|done]. by destruct (Js.truthy (profile_name pr)).
  - intros e w2 -> _. done.
Qed.

Lemma append_topics_result ssr requestId st w :
  snd (SteemApi.append_topics ENABLE_TIMING ambient api_call ssr requestId
         st w)
  = topics_step api_call ssr st.
Proof.
  change (ensures (SteemApi.append_topics ENABLE_TIMING ambient api_call ssr
                     requestId st) w
            (λ _ r, r = topics_step api_call ssr st)).
  unfold SteemApi.append_topics, topics_step.
  destruct ssr; [|done].
  apply ensures_bind, ensures_start. intros w1 _ _.
  apply ensures_bind, ensures_callBridge.
  - intros d ? -> _. apply ensures_bind, ensures_stop. intros w2 _. done.
  - intros e w2 -> _. done.
Qed.

Lemma clean_result requestId st w :
  snd (SteemApi.clean ENABLE_TIMING ambient stateCleaner requestId st w)
  = Ok (stateCleaner st).
Proof.
  change (ensures (SteemApi.clean ENABLE_TIMING ambient stateCleaner
                     requestId st) w (λ _ r, r = Ok (stateCleaner st))).
  apply ensures_clean. done.
Qed.

Lemma on_error_result url requestId e w :
  snd (SteemApi.on_error url requestId e w) = Throw e.
Proof.
  change (ensures (SteemApi.on_error url requestId e) w
            (λ _ r, r = Throw e)).
  apply ensures_on_error. done.
Qed.

(** The outcome of [getStateAsync] is the one its steps give without
    their timers. *)
Lemma getStateAsync_result url observer ssr requestId w :
  snd (SteemApi.getStateAsync ENABLE_TIMING ambient api_call ifHive
         stateCleaner url observer ssr requestId w)
  = hydrate api_call ifHive stateCleaner url observer ssr.
Proof.
  unfold SteemApi.getStateAsync, hydrate, try_catch.
  match goal with
  | |- snd (match ?body w with _ => _ end) = _ =>
      assert (Hbody : snd (body w)
                = hydrate api_call ifHive stateCleaner url observer ssr);
      [|destruct (body w) as [w' [s|e]]; simpl in *;
        [done|rewrite on_error_result; done]]
  end.
  unfold hydrate. cbv zeta.
  rewrite snd_bind. cbn [emit snd fst].
  rewrite snd_bind, load_content_result by apply parsePath_wf.
  destruct (content_step _ _ _ _) as [st1|e]; [|done].
  rewrite snd_bind, append_community_result.
  rewrite snd_bind, load_profile_result by apply parsePath_wf.
  destruct (profile_step _ _ _ _) as [st3|e]; [|done].
  rewrite snd_bind, append_topics_result.
  destruct (topics_step _ _ _) as [st4|e]; [|done].
  apply clean_result.
Qed.

End Outcome.

(** X17: the outcome of [getStateAsync], the snapshot returned or the
    error thrown, does not depend on whether timing is enabled, on the
    request id, on the clock and the random generator, or on the state of
    the process: instrumentation never changes a result. *)
Theorem getStateAsync_outcome_ignores_timing
    (flag flag' : bool) (ambient ambient' : nat → Reading)
    (api_call : ∀ c : BridgeCall, JsError + Reply c)
    (ifHive : string → bool) (stateCleaner : State → State)
    url observer ssr (requestId requestId' : option string) (w w' : World) :
  snd (SteemApi.getStateAsync flag ambient api_call ifHive stateCleaner url
         observer ssr requestId w)
  = snd (SteemApi.getStateAsync flag' ambient' api_call ifHive stateCleaner
           url observer ssr requestId' w').
Proof. by rewrite !getStateAsync_result. Qed.

Section Steps.
Variable api_call : ∀ c : BridgeCall, JsError + Reply c.
Variable ifHive : string → bool.

Lemma content_step_fails p observer st c e :
  content_call p observer = Some c → api_call c = inl e →
  content_step api_call p observer st = Throw e.
Proof.
  unfold content_call, content_step, posts_reply.
  destruct (page p) as [[]|]; [| | |done].
  - destruct (_ && _); intros [= <-] ->; done.
  - destruct (key p) as [[k0 k1]|]; [|done]. intros [= <-] ->. done.
  - destruct (_ && _); intros [= <-] ->; done.
Qed.

Lemma content_step_succeeds p observer st :
  path_wf p →
  (∀ c e, content_call p observer = Some c → api_call c ≠ inl e) →
  ∃ st1, content_step api_call p observer st = Ok st1.
Proof.
  unfold path_wf, content_call, content_step, posts_reply.
  destruct (page p) as [[]|]; [| | |eauto].
  - intros _ H. destruct (_ && _).
    + destruct (api_call (get_account_posts _ _ _)) as [e|ps] eqn:E; eauto.
      by destruct (H _ e eq_refl).
    + destruct (api_call (get_ranked_posts _ _ _)) as [e|ps] eqn:E; eauto.
      by destruct (H _ e eq_refl).
  - intros [[k0 k1] ->] H.
    destruct (api_call (get_discussion _ _)) as [e|d] eqn:E; eauto.
    by destruct (H _ e eq_refl).
  - intros _ H. destruct (_ && _).
    + destruct (api_call (get_account_posts _ _ _)) as [e|ps] eqn:E; eauto.
      by destruct (H _ e eq_refl).
    + destruct (api_call (get_ranked_posts _ _ _)) as [e|ps] eqn:E; eauto.
      by destruct (H _ e eq_refl).
Qed.

(** The content step touches [content] and [discussion_idx] only. *)
Lemma content_step_frame p observer st st1 :
  content_step api_call p observer st = Ok st1 →
  accounts st1 = accounts st ∧ community st1 = community st
  ∧ profiles st1 = profiles st ∧ topics st1 = topics st.
Proof.
  unfold content_step.
  destruct (page p) as [[]|].
  - destruct (posts_reply _ _ _ _); intros [= <-]; done.
  - destruct (key p) as [[k0 k1]|]; [|done].
    destruct (api_call _); intros [= <-]; done.
  - destruct (posts_reply _ _ _ _); intros [= <-]; done.
  - intros [= <-]. done.
Qed.

Lemma content_step_thread p observer st st1 k0 k1 :
  page p = Some thread → key p = Some (k0, k1) →
  content_step api_call p observer st = Ok st1 →
  ∃ d, api_call (get_discussion (Js.slice1 k0) k1) = inr d
       ∧ content st1 = d ∧ discussion_idx st1 = discussion_idx st.
Proof.
  unfold content_step. intros -> ->.
  destruct (api_call _) as [e|d]; intros [= <-]. eauto.
Qed.

Lemma content_step_listing p observer st st1 :
  page p = Some posts ∨ page p = Some account →
  content_step api_call p observer st = Ok st1 →
  ∃ ps, posts_reply api_call (Js.interp (sort p)) (Js.interp (tag p))
          observer = inr ps
        ∧ content st1
          = listing_content
              (listing_of (Js.interp (sort p)) (Js.interp (tag p)) ps)
        ∧ discussion_idx st1
          = listing_discussion_idx
              (listing_of (Js.interp (sort p)) (Js.interp (tag p)) ps).
Proof.
  unfold content_step. intros [-> | ->];
    (destruct (posts_reply _ _ _ _) as [e|ps]; intros [= <-]; eauto).
Qed.

(** The community step touches [community] only. *)
Lemma community_step_frame p observer st :
  accounts (community_step api_call ifHive p observer st) = accounts st
  ∧ content (community_step api_call ifHive p observer st) = content st
  ∧ discussion_idx (community_step api_call ifHive p observer st)
    = discussion_idx st
  ∧ profiles (community_step api_call ifHive p observer st) = profiles st
  ∧ topics (community_step api_call ifHive p observer st) = topics st.
Proof.
  unfold community_step. destruct (_ && _); [|done].
  by destruct (api_call _).
Qed.

(** The profile step touches [profiles] only. *)
Lemma profile_step_frame p ssr st st3 :
  profile_step api_call p ssr st = Ok st3 →
  accounts st3 = accounts st ∧ community st3 = community st
  ∧ content st3 = content st ∧ discussion_idx st3 = discussion_idx st
  ∧ topics st3 = topics st.
Proof.
  unfold profile_step.
  destruct (derived_account p) as [a|]; [|by intros [= <-]].
  destruct (_ && _); [|by intros [= <-]].
  destruct (api_call _) as [e|[pr|]]; [done| |by intros [= <-]].
  destruct (Js.truthy _); by intros [= <-].
Qed.

(** The topics step touches [topics] only. *)
Lemma topics_step_frame ssr st st4 :
  topics_step api_call ssr st = Ok st4 →
  accounts st4 = accounts st ∧ community st4 = community st
  ∧ content st4 = content st ∧ discussion_idx st4 = discussion_idx st
  ∧ profiles st4 = profiles st.
Proof.
  unfold topics_step. destruct ssr; [|by intros [= <-]].
  destruct (api_call _) as [e|t]; [done|]. by intros [= <-].
Qed.

Lemma hydrate_Ok stateCleaner url observer ssr s :
  hydrate api_call ifHive stateCleaner url observer ssr = Ok s →
  ∃ st1 st3 st4,
    content_step api_call (parsePath url) observer (mkState ∅ ∅ ∅ ∅ ∅ None)
    = Ok st1
    ∧ profile_step api_call (parsePath url) ssr
        (community_step api_call ifHive (parsePath url) observer st1)
      = Ok st3
    ∧ topics_step api_call ssr st3 = Ok st4
    ∧ s = stateCleaner st4.
Proof.
  unfold hydrate. cbv zeta.
  destruct (content_step _ _ _ _) as [st1|] eqn:E1; [|done].
  destruct (profile_step _ _ _ _) as [st3|] eqn:E3; [|done].
  destruct (topics_step _ _ _) as [st4|] eqn:E4; [|done].
  intros [= <-]. by exists st1, st3, st4.
Qed.

End Steps.

Section Snapshot.
Variable ENABLE_TIMING : bool.
Variable ambient : nat → Reading.
Variable api_call : ∀ c : BridgeCall, JsError + Reply c.
Variable ifHive : string → bool.
Variable stateCleaner : State → State.

Local Abbreviation getStateAsync :=
  (SteemApi.getStateAsync ENABLE_TIMING ambient api_call ifHive stateCleaner).

(** Opens a returned snapshot into the states between the steps, with
    what each step left untouched. *)
Ltac open_snapshot H url observer st1 st3 st4 :=
  rewrite getStateAsync_result in H;
  apply hydrate_Ok in H as (st1 & st3 & st4 & ?Hc & ?Hp & ?Ht & ->);
  let F := fresh "Fc" in
  pose proof (content_step_frame _ _ _ _ _ Hc) as F;
  cbn [accounts community profiles topics] in F;
  destruct F as (?Fc1 & ?Fc2 & ?Fc3 & ?Fc4);
  let F := fresh "Fp" in
  pose proof (profile_step_frame _ _ _ _ _ Hp) as F;
  destruct F as (?Fp1 & ?Fp2 & ?Fp3 & ?Fp4 & ?Fp5);
  let F := fresh "Ft" in
  pose proof (topics_step_frame _ _ _ _ Ht) as F;
  destruct F as (?Ft1 & ?Ft2 & ?Ft3 & ?Ft4 & ?Ft5);
  let F := fresh "Fm" in
  pose proof (community_step_frame api_call ifHive (parsePath url)
                observer st1) as F;
  destruct F as (?Fm1 & ?Fm2 & ?Fm3 & ?Fm4 & ?Fm5).

(** X18: in incremental (not server-rendering) mode [getStateAsync] fails
    exactly when the primary content fetch fails, and then with its
    error; in particular a failed community fetch never makes it fail. *)
Theorem incremental_mode_fails_only_on_content url observer requestId w :
  (∀ c e, content_call (parsePath url) observer = Some c →
          api_call c = inl e →
          snd (getStateAsync url observer false requestId w) = Throw e)
  ∧ ((∀ c e, content_call (parsePath url) observer = Some c →
             api_call c ≠ inl e) →
     ∃ s, snd (getStateAsync url observer false requestId w) = Ok s).
Proof.
  rewrite getStateAsync_result. unfold hydrate. cbv zeta. split.
  - intros c e Hc He.
    by rewrite (content_step_fails api_call _ _ _ _ _ Hc He).
  - intros Hfine.
    destruct (content_step_succeeds api_call (parsePath url) observer
                (mkState ∅ ∅ ∅ ∅ ∅ None) (parsePath_wf url) Hfine)
      as [st1 ->].
    unfold profile_step, topics_step.
    destruct (derived_account _); eauto.
Qed.

(** X19: for a thread, what [getStateAsync] returns is the normalization
    of a snapshot whose [content] is the discussion the backend gave for
    the author (the first part of the key without its "@") and the
    permlink, and whose [discussion_idx] is empty. *)
Theorem thread_snapshot_holds_discussion url observer ssr requestId w k0 k1
    s :
  page (parsePath url) = Some thread →
  key (parsePath url) = Some (k0, k1) →
  snd (getStateAsync url observer ssr requestId w) = Ok s →
  ∃ st d,
    s = stateCleaner st
    ∧ api_call (get_discussion (Js.slice1 k0) k1) = inr d
    ∧ content st = d
    ∧ discussion_idx st = ∅.
Proof.
  intros Hpage Hkey H. open_snapshot H url observer st1 st3 st4.
  destruct (content_step_thread api_call _ _ _ _ _ _ Hpage Hkey Hc)
    as (d & Hd & Hcontent & Hidx).
  exists st4, d. split; [done|]. split; [done|].
  split; [by rewrite Ft3, Fp3, Fm2|by rewrite Ft4, Fp4, Fm3, Hidx].
Qed.

(** X20: for a posts or account page, what [getStateAsync] returns is the
    normalization of a snapshot whose [content] and [discussion_idx] are
    those of the listing [loadPosts] builds from the backend's posts for
    the classified sort and tag. *)
Theorem listing_snapshot_holds_listing url observer ssr requestId w srt tg
    s :
  page (parsePath url) = Some posts ∨ page (parsePath url) = Some account →
  sort (parsePath url) = Some srt →
  tag (parsePath url) = Some tg →
  snd (getStateAsync url observer ssr requestId w) = Ok s →
  ∃ st ps,
    s = stateCleaner st
    ∧ posts_reply api_call srt tg observer = inr ps
    ∧ content st = listing_content (listing_of srt tg ps)
    ∧ discussion_idx st = listing_discussion_idx (listing_of srt tg ps).
Proof.
  intros Hpage Hsort Htag H. open_snapshot H url observer st1 st3 st4.
  destruct (content_step_listing api_call _ _ _ _ Hpage Hc)
    as (ps & Hps & Hcontent & Hidx).
  rewrite Hsort, Htag in *. cbn [Js.interp] in *.
  exists st4, ps. split; [done|]. split; [done|].
  split; [by rewrite Ft3, Fp3, Fm2|by rewrite Ft4, Fp4, Fm3].
Qed.

(** X21: the community metadata is best effort.  A snapshot returned by
    [getStateAsync] has no accounts, and its [community] holds the
    metadata under the tag, as its only own property, when [ifHive]
    accepts the tag and the fetch succeeded; when the fetch failed, or
    the tag is not accepted, [community] is empty and nothing else
    changes.  Should [ifHive] accept the tag "__proto__", the metadata
    becomes the prototype of [community] instead. *)
Theorem community_is_best_effort url observer ssr requestId w s :
  snd (getStateAsync url observer ssr requestId w) = Ok s →
  ∃ st,
    s = stateCleaner st
    ∧ accounts st = ∅
    ∧ community st
      = if Js.truthy (tag (parsePath url))
           && ifHive (Js.interp (tag (parsePath url)))
        then match api_call (get_community
                               (Js.interp (tag (parsePath url))) observer)
             with
             | inr c =>
                 if String.eqb (Js.interp (tag (parsePath url))) "__proto__"
                 then Js.mkObj ∅ (Some c)
                 else Js.mkObj {[ Js.interp (tag (parsePath url)) := c ]}
                        None
             | inl _ => ∅
             end
        else ∅.
Proof.
  intros H. open_snapshot H url observer st1 st3 st4.
  exists st4. split; [done|]. split; [congruence|].
  rewrite Ft2, Fp2. unfold community_step. rewrite Fc2.
  destruct (_ && _); [|done].
  destruct (api_call _); [done|]. cbn [community]. unfold Js.set.
  by destruct (String.eqb _ "__proto__").
Qed.

(** X22: trending topics belong to full server-rendering mode only.  In
    that mode a snapshot is returned only if the fetch of 12 topics
    succeeded, and it carries them; in incremental mode the snapshot has
    no topics and no profiles. *)
Theorem topics_only_in_ssr url observer ssr requestId w s :
  snd (getStateAsync url observer ssr requestId w) = Ok s →
  ∃ st,
    s = stateCleaner st
    ∧ (ssr = true →
       ∃ t, api_call (get_trending_topics 12) = inr t ∧ topics st = Some t)
    ∧ (ssr = false → topics st = None ∧ profiles st = ∅).
Proof.
  intros H. open_snapshot H url observer st1 st3 st4.
  exists st4. split; [done|]. split.
  - intros ->. unfold topics_step in Ht.
    destruct (api_call _) as [e|t]; [done|]. injection Ht as <-. eauto.
  - intros ->. unfold topics_step in Ht. injection Ht as <-.
    unfold profile_step in Hp.
    destruct (derived_account _); injection Hp as <-;
      split; congruence.
Qed.

(** X23: in full server-rendering mode a profile is attached only when
    it is well formed.  For the account derived from the path, if it is
    not empty, a returned snapshot holds the profile as the only own
    property of [profiles], under the account name, when the backend gave
    a profile whose name is neither missing nor empty, and holds no
    profile when the backend gave none or one without a name.  The
    account "__proto__" is the exception: its profile becomes the
    prototype of [profiles], which gets no own property. *)
Theorem profile_attached_only_with_name url observer requestId w a s :
  derived_account (parsePath url) = Some a →
  a ≠ "" →
  snd (getStateAsync url observer true requestId w) = Ok s →
  ∃ st reply,
    s = stateCleaner st
    ∧ api_call (get_profile a) = inr reply
    ∧ profiles st
      = match reply with
        | Some pr =>
            if Js.truthy (profile_name pr) then
              if String.eqb a "__proto__" then Js.mkObj ∅ (Some pr)
              else Js.mkObj {[ a := pr ]} None
            else ∅
        | None => ∅
        end.
Proof.
  intros Hacc Ha H. apply String.eqb_neq in Ha.
  open_snapshot H url observer st1 st3 st4.
  unfold profile_step in Hp. rewrite Hacc, Ha in Hp. cbn [andb negb] in Hp.
  destruct (api_call (get_profile a)) as [e|reply]; [done|].
  exists st4, reply. split; [done|]. split; [done|]. rewrite Ft5.
  destruct reply as [pr|].
  - destruct (Js.truthy (profile_name pr)); injection Hp as <-.
    + cbn [profiles]. rewrite Fm4, Fc3. unfold Js.set.
      by destruct (String.eqb a "__proto__").
    + congruence.
  - injection Hp as <-. congruence.
Qed.

End Snapshot.

Lemma thread_snapshot_holds_discussion_sample :
  ∃ s,
    snd (SteemApi.getStateAsync true sample_ambient backend_up sample_ifHive
           sample_cleaner "cats/@alice/intro" None true (Some "req-1") boot)
    = Ok s
    ∧ ∃ st d,
        s = sample_cleaner st
        ∧ backend_up (get_discussion (Js.slice1 "@alice") "intro") = inr d
        ∧ content st = d
        ∧ discussion_idx st = ∅.
Proof.
  eexists. split; [vm_compute; reflexivity|].
  apply (thread_snapshot_holds_discussion true sample_ambient backend_up
           sample_ifHive sample_cleaner "cats/@alice/intro" None true
           (Some "req-1") boot "@alice" "intro");
    [reflexivity|reflexivity|vm_compute; reflexivity].
Defined.

Lemma listing_snapshot_holds_listing_sample :
  ∃ s,
    snd (SteemApi.getStateAsync true sample_ambient backend_up sample_ifHive
           sample_cleaner "trending/cats" None false (Some "req-1") boot)
    = Ok s
    ∧ ∃ st ps,
        s = sample_cleaner st
        ∧ posts_reply backend_up "trending" "cats" None = inr ps
        ∧ content st = listing_content (listing_of "trending" "cats" ps)
        ∧ discussion_idx st
          = listing_discussion_idx (listing_of "trending" "cats" ps).
Proof.
  eexists. split; [vm_compute; reflexivity|].
  apply (listing_snapshot_holds_listing true sample_ambient backend_up
           sample_ifHive sample_cleaner "trending/cats" None false
           (Some "req-1") boot "trending" "cats");
    [left; reflexivity|reflexivity|reflexivity|vm_compute; reflexivity].
Defined.

Lemma community_is_best_effort_sample :
  ∃ s,
    snd (SteemApi.getStateAsync true sample_ambient backend_no_community
           sample_ifHive sample_cleaner "trending/hive-123" None false
           (Some "req-1") boot)
    = Ok s
    ∧ ∃ st, s = sample_cleaner st ∧ accounts st = ∅ ∧ community st = ∅.
Proof.
  eexists. split; [vm_compute; reflexivity|].
  apply (community_is_best_effort true sample_ambient backend_no_community
           sample_ifHive sample_cleaner "trending/hive-123" None false
           (Some "req-1") boot).
  vm_compute; reflexivity.
Defined.

Lemma topics_only_in_ssr_sample :
  ∃ s,
    snd (SteemApi.getStateAsync true sample_ambient backend_up sample_ifHive
           sample_cleaner "trending" None true (Some "req-1") boot)
    = Ok s
    ∧ ∃ st,
        s = sample_cleaner st
        ∧ (true = true →
           ∃ t, backend_up (get_trending_topics 12) = inr t
                ∧ topics st = Some t)
        ∧ (true = false → topics st = None ∧ profiles st = ∅).
Proof.
  eexists. split; [vm_compute; reflexivity|].
  apply (topics_only_in_ssr true sample_ambient backend_up sample_ifHive
           sample_cleaner "trending" None true (Some "req-1") boot).
  vm_compute; reflexivity.
Defined.

Lemma profile_attached_only_with_name_sample :
  ∃ s,
    snd (SteemApi.getStateAsync true sample_ambient backend_up sample_ifHive
           sample_cleaner "@alice" None true (Some "req-1") boot)
    = Ok s
    ∧ ∃ st reply,
        s = sample_cleaner st
        ∧ backend_up (get_profile "alice") = inr reply
        ∧ profiles st
          = match reply with
            | Some pr =>
                if Js.truthy (profile_name pr) then
                  if String.eqb "alice" "__proto__"
                  then Js.mkObj ∅ (Some pr)
                  else Js.mkObj {[ "alice" := pr ]} None
                else ∅
            | None => ∅
            end.
Proof.
  eexists. split; [vm_compute; reflexivity|].
  apply (profile_attached_only_with_name true sample_ambient backend_up
           sample_ifHive sample_cleaner "@alice" None (Some "req-1") boot
           "alice");
    [reflexivity|done|vm_compute; reflexivity].
Defined.

(** * What [getStateAsync] keeps of the process *)

Section Pass.
Variable I : World → Prop.
Variable T : JsError → Prop.

Lemma pass_ret {A} (a : A) : pass I T (ret a).
Proof. intros w Hw. by split. Qed.

Lemma pass_throw {A} e : T e → pass I T (throw e : M A).
Proof. intros He w Hw. split; [done|]. by intros e' [= <-]. Qed.

Lemma pass_bind {A B} (m : M A) (f : A → M B) :
  pass I T m → (∀ a, pass I T (f a)) → pass I T (bind m f).
Proof.
  intros Hm Hf w Hw. unfold bind.
  destruct (Hm w Hw) as [Hi Ht]. destruct (m w) as [w1 [a|e]]; simpl in *.
  - by apply Hf.
  - split; [done|]. intros e' [= <-]. by apply Ht.
Qed.

Lemma pass_try_catch {A} (m : M A) (h : JsError → M A) :
  pass I T m → (∀ e, T e → pass I T (h e)) → pass I T (try_catch m h).
Proof.
  intros Hm Hh w Hw. unfold try_catch.
  destruct (Hm w Hw) as [Hi Ht]. destruct (m w) as [w1 [a|e]]; simpl in *.
  - split; [done|]. by intros e [=].
  - apply Hh; [by apply Ht|done].
Qed.

(** The steps of [getStateAsync] pass [I] and [T] on as soon as the
    console, the timers placed under the labels [L], the bridge and the
    handler do. *)
Variable ENABLE_TIMING : bool.
Variable ambient : nat → Reading.
Variable api_call : ∀ c : BridgeCall, JsError + Reply c.
Variable ifHive : string → bool.
Variable stateCleaner : State → State.
Variable requestId : option string.
Variable L : string → Prop.
Hypothesis pass_emit : ∀ ev, pass I T (emit ev).
Hypothesis pass_start :
  ∀ l, pass I T (TimingUtils.safeConsoleTime ENABLE_TIMING ambient l
                   requestId).
Hypothesis pass_stop :
  ∀ l, L l →
       pass I T (TimingUtils.safeConsoleTimeEnd ENABLE_TIMING ambient l
                   requestId).
Hypothesis pass_callBridge : ∀ c, pass I T (SteemApi.callBridge api_call c).
Hypothesis pass_key :
  T (mkError "TypeError" "Cannot read properties of null").

Ltac passes :=
  repeat first
    [ apply pass_ret
    | apply pass_emit
    | apply pass_start
    | apply pass_callBridge
    | apply pass_stop
    | apply pass_throw
    | apply pass_bind; [|intros ?]
    | match goal with
      | |- pass _ _ (match ?x with _ => _ end) => destruct x
      | |- pass _ _ (let '(_, _) := ?x in _) => destruct x
      end ].

Lemma pass_load_profile p ssr st :
  (∀ a, L ("timing_get_profile_" +:+ a)) →
  pass I T (SteemApi.load_profile ENABLE_TIMING ambient api_call p ssr
              requestId st).
Proof.
  intros HL. unfold SteemApi.load_profile, SteemApi.profile_account,
    SteemApi.key_at.
  passes; auto.
Qed.

Lemma pass_append_topics ssr st :
  L "timing_get_trending_topics" →
  pass I T (SteemApi.append_topics ENABLE_TIMING ambient api_call ssr
              requestId st).
Proof. intros HL. unfold SteemApi.append_topics. passes; auto. Qed.

Lemma pass_clean st :
  L "timing_stateCleaner" →
  pass I T (SteemApi.clean ENABLE_TIMING ambient stateCleaner requestId st).
Proof. intros HL. unfold SteemApi.clean. passes; auto. Qed.

Lemma pass_append_community p observer st :
  (∀ t, L ("timing_get_community_" +:+ t)) →
  pass I T (SteemApi.append_community ENABLE_TIMING ambient api_call ifHive
              p observer requestId st).
Proof.
  intros HL. unfold SteemApi.append_community.
  destruct (_ && _); [|apply pass_ret].
  apply pass_try_catch; [passes; auto|]. intros e _. apply pass_ret.
Qed.

Lemma pass_load_content p observer ssr st :
  (∀ l, L l) →
  pass I T (SteemApi.load_content ENABLE_TIMING ambient api_call p observer
              ssr requestId st).
Proof.
  intros HL. unfold SteemApi.load_content, SteemApi.loadPosts,
    SteemApi.loadThread, SteemApi.key_at.
  passes; auto.
Qed.

Lemma pass_getStateAsync url observer ssr :
  (∀ l, L l) →
  (∀ e, T e → pass I T (SteemApi.on_error url requestId e)) →
  pass I T (SteemApi.getStateAsync ENABLE_TIMING ambient api_call ifHive
              stateCleaner url observer ssr requestId).
Proof.
  intros HL Hh. unfold SteemApi.getStateAsync.
  apply pass_try_catch; [|done]. cbv zeta.
  apply pass_bind; [apply pass_emit|intros _].
  apply pass_bind; [by apply pass_load_content|intros st1].
  apply pass_bind; [apply pass_append_community; auto|intros st2].
  apply pass_bind; [apply pass_load_profile; auto|intros st3].
  apply pass_bind; [apply pass_append_topics; auto|intros st4].
  apply pass_clean; auto.
Qed.

End Pass.

Lemma pass_emit_frame (I : World → Prop) (T : JsError → Prop) ev :
  (∀ w, I w → I (mkWorld (activeTimers w) (ticks w) (rpc_resets w)
                   (ev :: console w) (requests w))) →
  pass I T (emit ev).
Proof. intros H w Hw. split; [by apply H|]. by intros e [=]. Qed.

(** X24: the endpoint is only reset for network failures.  When no
    backend error carries the message "Network request failed",
    [getStateAsync] never invokes the endpoint-reset hook, whatever
    fails. *)
Theorem no_network_failure_no_reset
    (flag : bool) (ambient : nat → Reading)
    (api_call : ∀ c : BridgeCall, JsError + Reply c)
    (ifHive : string → bool) (stateCleaner : State → State)
    url observer ssr requestId w :
  (∀ c e, api_call c = inl e → message e ≠ "Network request failed") →
  rpc_resets
    (fst (SteemApi.getStateAsync flag ambient api_call ifHive stateCleaner
            url observer ssr requestId w))
  = rpc_resets w.
Proof.
  intros Hquiet.
  refine (proj1 (pass_getStateAsync
                   (λ w', rpc_resets w' = rpc_resets w)
                   (λ e, resets_for e = 0)
                   flag ambient api_call ifHive stateCleaner requestId
                   (λ _, True) _ _ _ _ _ url observer ssr _ _ w eq_refl)).
  - intros ev. by apply pass_emit_frame.
  - intros l w0 Hw0.
    destruct (safeConsoleTime_runs ambient flag l requestId w0)
      as (w' & tok & -> & Hr).
    split; [simpl; congruence|]. by intros e [=].
  - intros l _ w0 Hw0.
    destruct (safeConsoleTimeEnd_runs ambient flag l requestId w0)
      as (w' & -> & Hr).
    split; [simpl; congruence|]. by intros e [=].
  - intros c w0 Hw0. unfold SteemApi.callBridge.
    destruct (api_call c) as [e|d] eqn:E;
      [|split; [done|by intros e [=]]].
    assert (He : resets_for e = 0).
    { unfold resets_for.
      by rewrite (proj2 (String.eqb_neq _ _) (Hquiet _ _ E)). }
    unfold resets_for in He. unfold bind, emit. cbv beta iota.
    destruct (String.eqb (message e) "Network request failed"); [done|].
    split; [done|]. intros e' [= <-]. unfold resets_for.
    by rewrite (proj2 (String.eqb_neq _ _) (Hquiet _ _ E)).
  - reflexivity.
  - done.
  - intros e He w0 Hw0. unfold SteemApi.on_error, bind, emit.
    cbv beta iota. unfold resets_for in He.
    destruct (String.eqb (message e) "Network request failed") eqn:Hm;
      [done|].
    split; [done|]. intros e' [= <-]. unfold resets_for. by rewrite Hm.
Qed.

Lemma no_network_failure_no_reset_sample :
  rpc_resets
    (fst (SteemApi.getStateAsync true sample_ambient backend_no_profile
            sample_ifHive sample_cleaner "@alice" None true (Some "req-1")
            boot))
  = rpc_resets boot.
Proof.
  apply (no_network_failure_no_reset true sample_ambient backend_no_profile
           sample_ifHive sample_cleaner "@alice" None true (Some "req-1")
           boot).
  intros c e. destruct c; simpl; intros [= <-]; done.
Defined.

(** X25: with timing disabled, [getStateAsync] leaves the registry as it
    is and reads neither the clock nor the random generator, whatever
    the backend answers and whether it returns or throws. *)
Theorem disabled_timing_costs_nothing
    (ambient : nat → Reading)
    (api_call : ∀ c : BridgeCall, JsError + Reply c)
    (ifHive : string → bool) (stateCleaner : State → State)
    url observer ssr requestId w :
  activeTimers
    (fst (SteemApi.getStateAsync false ambient api_call ifHive stateCleaner
            url observer ssr requestId w))
  = activeTimers w
  ∧ ticks
      (fst (SteemApi.getStateAsync false ambient api_call ifHive
              stateCleaner url observer ssr requestId w))
    = ticks w.
Proof.
  refine (proj1 (pass_getStateAsync
                   (λ w', activeTimers w' = activeTimers w
                          ∧ ticks w' = ticks w)
                   (λ _, True)
                   false ambient api_call ifHive stateCleaner requestId
                   (λ _, True) _ _ _ _ _ url observer ssr _ _ w
                   (conj eq_refl eq_refl))).
  - intros ev. by apply pass_emit_frame.
  - intros l w0 Hw0. split; [done|]. by intros e [=].
  - intros l _ w0 Hw0. split; [done|]. by intros e [=].
  - intros c w0 Hw0. unfold SteemApi.callBridge.
    destruct (api_call c) as [e|d]; [|split; [done|by intros e [=]]].
    unfold bind, emit. cbv beta iota.
    destruct (String.eqb (message e) "Network request failed"); by split.
  - done.
  - done.
  - intros e _ w0 Hw0. unfold SteemApi.on_error, bind, emit.
    cbv beta iota.
    destruct (String.eqb (message e) "Network request failed"); by split.
Qed.

(** * Timer spans left behind by [getStateAsync] *)

Lemma ensures_mono {A} (m : M A) w (Q Q' : World → Res A → Prop) :
  ensures m w Q → (∀ w' r, Q w' r → Q' w' r) → ensures m w Q'.
Proof. unfold ensures. auto. Qed.

Lemma pass_ensures (I : World → Prop) (T : JsError → Prop) {A} (m : M A) w :
  pass I T m → I w → ensures m w (λ w' _, I w').
Proof. intros Hm Hw. by apply Hm. Qed.

Section Tracked.
Variable ambient : nat → Reading.
Variable api_call : ∀ c : BridgeCall, JsError + Reply c.
Variable id : string.
Hypothesis id_given : id ≠ "".

Lemma ensures_start_id l w (Q : World → Res (option string) → Prop) :
  (∀ w' t, activeTimers w' = <[l +:+ "_" +:+ id := t]> (activeTimers w) →
           Q w' (Ok (Some (l +:+ "_" +:+ id)))) →
  ensures (TimingUtils.safeConsoleTime true ambient l (Some id)) w Q.
Proof.
  intros H. destruct (start_with_id ambient l id w id_given)
    as (w' & t & E & Hreg & _).
  unfold ensures. rewrite E. by eapply H.
Qed.

Lemma ensures_stop_id l w (Q : World → Res unit → Prop) :
  activeTimers w !! l = None →
  (∀ w', activeTimers w' = delete (l +:+ "_" +:+ id) (activeTimers w) →
         Q w' (Ok tt)) →
  ensures (TimingUtils.safeConsoleTimeEnd true ambient l (Some id)) w Q.
Proof.
  intros Hraw H. destruct (stop_with_id ambient l id w id_given)
    as (w' & E & Hreg & _).
  unfold ensures. rewrite E. apply H. cbn [fst]. rewrite Hreg.
  rewrite bool_decide_eq_false_2; [done|]. rewrite Hraw. by intros [? ?].
Qed.

Lemma ensures_callBridge_reg c w (Q : World → Res (Reply c) → Prop) :
  (∀ d w', api_call c = inr d → activeTimers w' = activeTimers w →
           Q w' (Ok d)) →
  (∀ e w', api_call c = inl e → activeTimers w' = activeTimers w →
           Q w' (Throw e)) →
  ensures (SteemApi.callBridge api_call c) w Q.
Proof.
  intros Hok Herr. unfold ensures, SteemApi.callBridge.
  destruct (api_call c) as [e|d]; [|by apply Hok].
  unfold bind, api_send, emit. cbv beta iota.
  destruct (String.eqb (message e) "Network request failed");
    by apply Herr.
Qed.

Lemma on_error_registry url requestId e w :
  activeTimers (fst (SteemApi.on_error url requestId e w)) = activeTimers w.
Proof.
  unfold SteemApi.on_error, bind, emit. cbv beta iota.
  by destruct (String.eqb (message e) "Network request failed").
Qed.

Lemma ensures_emit_reg ev w (Q : World → Res unit → Prop) :
  (∀ w', activeTimers w' = activeTimers w → Q w' (Ok tt)) →
  ensures (emit ev) w Q.
Proof. intros H. by apply H. Qed.

Lemma pass_start_key K l :
  pass (λ w, is_Some (activeTimers w !! K)) (λ _, True)
    (TimingUtils.safeConsoleTime true ambient l (Some id)).
Proof.
  intros w Hw. destruct (start_with_id ambient l id w id_given)
    as (w' & t & -> & Hreg & _).
  split; [|done]. simpl. rewrite Hreg, lookup_insert_is_Some.
  destruct (decide (l +:+ "_" +:+ id = K)); auto.
Qed.

Lemma pass_stop_key K l :
  stays id K l →
  pass (λ w, is_Some (activeTimers w !! K)) (λ _, True)
    (TimingUtils.safeConsoleTimeEnd true ambient l (Some id)).
Proof.
  intros [H1 H2] w Hw. destruct (stop_with_id ambient l id w id_given)
    as (w' & -> & Hreg & _).
  split; [|done]. simpl. rewrite Hreg.
  rewrite lookup_delete_ne; [done|]. by case_bool_decide.
Qed.

Lemma pass_callBridge_key K c :
  pass (λ w, is_Some (activeTimers w !! K)) (λ _, True)
    (SteemApi.callBridge api_call c).
Proof.
  intros w Hw. unfold SteemApi.callBridge.
  destruct (api_call c) as [e|d]; [|by split].
  unfold bind, emit. cbv beta iota.
  destruct (String.eqb (message e) "Network request failed"); by split.
Qed.

End Tracked.

Section Orphans.
Variable ambient : nat → Reading.
Variable api_call : ∀ c : BridgeCall, JsError + Reply c.
Variable ifHive : string → bool.
Variable stateCleaner : State → State.
Variable id : string.
Hypothesis id_given : id ≠ "".

Local Abbreviation getStateAsync :=
  (SteemApi.getStateAsync true ambient api_call ifHive stateCleaner).

(** X26: a community failure is swallowed together with the stop of its
    timer.  With timing on and a request id, when the content fetch
    succeeds and the community fetch fails, the span started for the
    community fetch is still registered when [getStateAsync] is over,
    whether it returned or threw. *)
Theorem swallowed_community_failure_orphans_span url observer ssr w tg e :
  tag (parsePath url) = Some tg →
  tg ≠ "" →
  ifHive tg = true →
  (∀ c e', content_call (parsePath url) observer = Some c →
           api_call c ≠ inl e') →
  api_call (get_community tg observer) = inl e →
  is_Some
    (activeTimers (fst (getStateAsync url observer ssr (Some id) w))
       !! ("timing_get_community_" +:+ tg +:+ "_" +:+ id)).
Proof.
  intros Htag Htg Hhive Hfine He.
  set (K := "timing_get_community_" +:+ tg +:+ "_" +:+ id).
  set (I := λ w', is_Some (activeTimers w' !! K)).
  change (ensures (getStateAsync url observer ssr (Some id)) w
            (λ w' _, I w')).
  unfold SteemApi.getStateAsync. cbv zeta.
  apply ensures_try_catch.
  apply ensures_mono with (Q := λ w' _, I w').
  2:{ intros w' r Hr. destruct r as [s|e']; [exact Hr|].
      unfold ensures, I. rewrite on_error_registry. exact Hr. }
  apply ensures_bind, ensures_emit. intros w1 _ _.
  apply ensures_bind, ensures_load_content_any; [apply parsePath_wf| |].
  2:{ intros w2 c e' Hc He' _. by destruct (Hfine c e' Hc). }
  intros w2 st2 _.
  apply ensures_bind. unfold SteemApi.append_community.
  rewrite Htag. cbn [Js.truthy Js.interp].
  rewrite (proj2 (String.eqb_neq _ _) Htg), Hhive. cbn [negb andb].
  apply ensures_try_catch, ensures_bind, (ensures_start_id ambient id id_given).
  intros w3 t Hreg3.
  apply ensures_bind, ensures_callBridge_reg.
  { intros d ? Hd _. rewrite He in Hd. done. }
  intros e' w4 _ Hreg4. apply ensures_ret.
  assert (Hw4 : I w4).
  { unfold I, K. rewrite Hreg4, Hreg3, lookup_insert_eq. eauto. }
  assert (Hstart : ∀ l, pass I (λ _, True)
             (TimingUtils.safeConsoleTime true ambient l (Some id))).
  { intros l. apply (pass_start_key ambient id id_given). }
  assert (Hstop : ∀ l, stays id K l → pass I (λ _, True)
             (TimingUtils.safeConsoleTimeEnd true ambient l (Some id))).
  { intros l. apply (pass_stop_key ambient id id_given). }
  assert (Hcall : ∀ c, pass I (λ _, True) (SteemApi.callBridge api_call c)).
  { intros c. apply pass_callBridge_key. }
  apply (pass_ensures I (λ _, True)); [|exact Hw4].
  apply pass_bind;
    [apply (pass_load_profile I (λ _, True) true ambient api_call (Some id)
              (stays id K)); auto; intros a; split; done|intros st3].
  apply pass_bind;
    [apply (pass_append_topics I (λ _, True) true ambient api_call (Some id)
              (stays id K)); auto; split; done|intros st4].
  apply (pass_clean I (λ _, True) true ambient stateCleaner (Some id)
           (stays id K)); auto. split; done.
Qed.

End Orphans.

Lemma swallowed_community_failure_orphans_span_sample :
  is_Some
    (activeTimers
       (fst (SteemApi.getStateAsync true sample_ambient backend_no_community
               sample_ifHive sample_cleaner "trending/hive-123" None false
               (Some "req-1") boot))
       !! "timing_get_community_hive-123_req-1").
Proof.
  apply (swallowed_community_failure_orphans_span sample_ambient
           backend_no_community sample_ifHive sample_cleaner "req-1"
           ltac:(done) "trending/hive-123" None false boot "hive-123"
           remote_error);
    [reflexivity|done|reflexivity| |reflexivity].
  intros c e' [= <-]. done.
Defined.

Section Leaks.
Variable ambient : nat → Reading.
Variable api_call : ∀ c : BridgeCall, JsError + Reply c.
Variable ifHive : string → bool.
Variable stateCleaner : State → State.
Variable id : string.
Hypothesis id_given : id ≠ "".

Local Abbreviation getStateAsync :=
  (SteemApi.getStateAsync true ambient api_call ifHive stateCleaner).

Lemma two_spans (O I : string) (t1 t2 : N * N) :
  O ≠ I →
  size (<[I := t2]> (<[O := t1]> (∅ : gmap string (N * N)))) = 2.
Proof.
  intros H. rewrite map_size_insert_None.
  - by rewrite map_size_insert_None, map_size_empty.
  - by rewrite lookup_insert_ne.
Qed.

(** The inner timer and the failing call of a content fetch. *)
Ltac failing_fetch Hc He Hreg2 :=
  apply ensures_bind, (ensures_start_id ambient id id_given);
  intros ? ? ?Hreg3;
  apply ensures_bind, ensures_callBridge_reg;
  [ intros ? ? ?Hd _; injection Hc as <-; rewrite He in Hd; discriminate Hd
  | intros ? ? ?He' ?Hreg4; cbv beta iota;
    injection Hc as <-; rewrite He in He'; injection He' as <-;
    split; [eauto|];
    rewrite Hreg4, Hreg3, Hreg2; by apply two_spans ].

(** X27: a failed content fetch leaves its timers running.  With timing
    on and a request id, when the primary content fetch fails, the span
    around the load and the span around the backend call are both still
    registered after [getStateAsync] has thrown: started on an empty
    registry it ends with two entries. *)
Theorem failed_content_fetch_orphans_spans url observer ssr w c e :
  content_call (parsePath url) observer = Some c →
  api_call c = inl e →
  activeTimers w = ∅ →
  snd (getStateAsync url observer ssr (Some id) w) = Throw e
  ∧ size (activeTimers (fst (getStateAsync url observer ssr (Some id) w)))
    = 2.
Proof.
  intros Hc He Hw.
  change (ensures (getStateAsync url observer ssr (Some id)) w
            (λ w' r, r = Throw e ∧ size (activeTimers w') = 2)).
  unfold SteemApi.getStateAsync. cbv zeta.
  apply ensures_try_catch.
  apply ensures_mono
    with (Q := λ w' r, (∃ e', r = Throw e' ∧ e' = e)
                       ∧ size (activeTimers w') = 2).
  2:{ intros w' r [(e' & -> & ->) Hsize].
      unfold ensures. by rewrite on_error_registry, on_error_result. }
  apply ensures_bind, ensures_emit_reg. intros w1 Hreg1.
  rewrite Hw in Hreg1.
  apply ensures_bind.
  pose proof (parsePath_wf url) as Hwf.
  unfold SteemApi.load_content, content_call, path_wf in *.
  destruct (page (parsePath url)) as [[]|]; [| | |done].
  - apply ensures_bind, (ensures_start_id ambient id id_given).
    intros w2 t Hreg2. rewrite Hreg1 in Hreg2.
    apply ensures_bind. unfold SteemApi.loadPosts. apply ensures_bind.
    destruct (Js.starts_with "@" _); cbn [Js.truthy Js.interp andb] in *;
      [destruct (String.eqb _ ""); cbn [negb] in *|];
      failing_fetch Hc He Hreg2.
  - destruct Hwf as [[k0 k1] Hkey]. rewrite Hkey in *.
    cbn [SteemApi.key_at].
    apply ensures_bind, ensures_ret. apply ensures_bind, ensures_ret.
    apply ensures_bind, (ensures_start_id ambient id id_given).
    intros w2 t Hreg2. rewrite Hreg1 in Hreg2.
    apply ensures_bind. unfold SteemApi.loadThread.
    failing_fetch Hc He Hreg2.
  - apply ensures_bind, (ensures_start_id ambient id id_given).
    intros w2 t Hreg2. rewrite Hreg1 in Hreg2.
    apply ensures_bind. unfold SteemApi.loadPosts. apply ensures_bind.
    destruct (Js.starts_with "@" _); cbn [Js.truthy Js.interp andb] in *;
      [destruct (String.eqb _ ""); cbn [negb] in *|];
      failing_fetch Hc He Hreg2.
Qed.

End Leaks.

Lemma failed_content_fetch_orphans_spans_sample :
  snd (SteemApi.getStateAsync true sample_ambient backend_unreachable
         sample_ifHive sample_cleaner "trending" None true (Some "req-1")
         boot)
  = Throw network_error
  ∧ size
      (activeTimers
         (fst (SteemApi.getStateAsync true sample_ambient backend_unreachable
                 sample_ifHive sample_cleaner "trending" None true
                 (Some "req-1") boot)))
    = 2.
Proof.
  apply (failed_content_fetch_orphans_spans sample_ambient
           backend_unreachable sample_ifHive sample_cleaner "req-1"
           ltac:(done) "trending" None true boot
           (get_ranked_posts "trending" "" None) network_error);
    reflexivity.
Defined.

Lemma balanced_bind R {A B} (m : M A) (f : A → M B) :
  balanced R m → (∀ a, balanced R (f a)) → balanced R (bind m f).
Proof.
  intros Hm Hf w Hw b. unfold bind.
  specialize (Hm w Hw). destruct (m w) as [w1 [a|e]]; simpl in *; [|done].
  apply Hf. by eapply Hm.
Qed.

Lemma balanced_try_catch R {A} (m : M A) (h : JsError → M A) :
  balanced R m → (∀ e w a, snd (h e w) ≠ Ok a) →
  balanced R (try_catch m h).
Proof.
  intros Hm Hh w Hw a. unfold try_catch.
  specialize (Hm w Hw). destruct (m w) as [w1 [a'|e]]; simpl in *.
  - intros [= <-]. by eapply Hm.
  - intros H. by destruct (Hh e w1 a).
Qed.

Lemma balanced_ensures R {A} (m : M A) :
  (∀ w, activeTimers w = R →
        ensures m w (λ w' r, ∀ a, r = Ok a → activeTimers w' = R)) →
  balanced R m.
Proof. intros H w Hw. by apply H. Qed.

Section Balance.
Variable ambient : nat → Reading.
Variable api_call : ∀ c : BridgeCall, JsError + Reply c.
Variable ifHive : string → bool.
Variable stateCleaner : State → State.
Variable id : string.
Hypothesis id_given : id ≠ "".

(** Two keys differ: by their prefixes, or as a label and the label with
    the request id. *)
Ltac keys_differ :=
  first [ done
        | let H := fresh in
          intros H; symmetry in H; by apply append_ne_self in H
        | let H := fresh in intros H; by apply append_ne_self in H ].

(** A timer around one backend call, on the registry [R]: when the call
    resolves, the stop removes what the start registered. *)
Ltac timed_call Hreg :=
  apply ensures_bind, (ensures_start_id ambient id id_given);
  intros ? ? ?Hreg1; rewrite Hreg in Hreg1;
  apply ensures_bind, ensures_callBridge_reg;
  [ intros ? ? _ ?Hsent; rewrite Hreg1 in Hsent;
    apply ensures_bind, (ensures_stop_id ambient id id_given);
    [ rewrite Hsent; rewrite !lookup_insert_ne by keys_differ;
      by apply lookup_empty
    | intros ? ?Hreg2; rewrite Hsent in Hreg2;
      rewrite delete_insert_id in Hreg2
        by (rewrite ?lookup_insert_ne by keys_differ; by apply lookup_empty) ]
  | intros ? ? _ _; cbv beta iota; by intros ? [=] ].

Lemma balanced_load_content p observer ssr st :
  balanced ∅ (SteemApi.load_content true ambient api_call p observer ssr
                (Some id) st).
Proof.
  apply balanced_ensures. intros w Hw.
  unfold SteemApi.load_content.
  destruct (page p) as [[]|]; [| | |by apply ensures_ret].
  - apply ensures_bind, (ensures_start_id ambient id id_given).
    intros w1 t Hreg. rewrite Hw in Hreg.
    apply ensures_bind. unfold SteemApi.loadPosts. apply ensures_bind.
    destruct (Js.truthy _); timed_call Hreg;
      apply ensures_ret; cbv beta iota;
      destruct (fold_left _ _ _); apply ensures_ret; cbv beta iota;
      (apply ensures_bind, (ensures_stop_id ambient id id_given);
       [ rewrite Hreg2; rewrite !lookup_insert_ne by keys_differ;
         by apply lookup_empty
       | intros w5 Hreg5; rewrite Hreg2 in Hreg5;
         rewrite delete_insert_id in Hreg5 by apply lookup_empty;
         by apply ensures_ret ]).
  - unfold SteemApi.key_at. destruct (key p) as [[k0 k1]|];
      [|apply ensures_bind, ensures_throw; by intros ? [=]].
    apply ensures_bind, ensures_ret. apply ensures_bind, ensures_ret.
    apply ensures_bind, (ensures_start_id ambient id id_given).
    intros w1 t Hreg. rewrite Hw in Hreg.
    apply ensures_bind. unfold SteemApi.loadThread.
    timed_call Hreg. apply ensures_ret. cbv beta iota.
    apply ensures_bind, (ensures_stop_id ambient id id_given);
      [ rewrite Hreg2; rewrite !lookup_insert_ne by keys_differ;
        by apply lookup_empty
      | intros w5 Hreg5; rewrite Hreg2 in Hreg5;
        rewrite delete_insert_id in Hreg5 by apply lookup_empty;
        by apply ensures_ret ].
  - apply ensures_bind, (ensures_start_id ambient id id_given).
    intros w1 t Hreg. rewrite Hw in Hreg.
    apply ensures_bind. unfold SteemApi.loadPosts. apply ensures_bind.
    destruct (Js.truthy _); timed_call Hreg;
      apply ensures_ret; cbv beta iota;
      destruct (fold_left _ _ _); apply ensures_ret; cbv beta iota;
      (apply ensures_bind, (ensures_stop_id ambient id id_given);
       [ rewrite Hreg2; rewrite !lookup_insert_ne by keys_differ;
         by apply lookup_empty
       | intros w5 Hreg5; rewrite Hreg2 in Hreg5;
         rewrite delete_insert_id in Hreg5 by apply lookup_empty;
         by apply ensures_ret ]).
Qed.

Lemma balanced_append_community p observer st :
  (∀ e, Js.truthy (tag p) && ifHive (Js.interp (tag p)) = true →
        api_call (get_community (Js.interp (tag p)) observer) ≠ inl e) →
  balanced ∅ (SteemApi.append_community true ambient api_call ifHive p
                observer (Some id) st).
Proof.
  intros Hfine. apply balanced_ensures. intros w Hw.
  unfold SteemApi.append_community.
  destruct (_ && _); [|by apply ensures_ret].
  apply ensures_try_catch, ensures_bind, (ensures_start_id ambient id id_given).
  intros w1 t Hreg1. rewrite Hw in Hreg1.
  apply ensures_bind, ensures_callBridge_reg.
  - intros d w1' _ Hsent. rewrite Hreg1 in Hsent.
    apply ensures_bind, (ensures_stop_id ambient id id_given).
    + rewrite Hsent. rewrite lookup_insert_ne by keys_differ.
      apply lookup_empty.
    + intros w2 Hreg2. rewrite Hsent in Hreg2.
      rewrite delete_insert_id in Hreg2 by apply lookup_empty.
      by apply ensures_ret.
  - intros e w2 He _. by destruct (Hfine e).
Qed.

Lemma balanced_load_profile p ssr st :
  balanced ∅ (SteemApi.load_profile true ambient api_call p ssr (Some id)
                st).
Proof.
  apply balanced_ensures. intros w Hw.
  unfold SteemApi.load_profile. apply ensures_bind.
  assert (Hacc : ∀ Q : World → Res (option string) → Prop,
    (∀ a, Q w (Ok a)) → (∀ e, Q w (Throw e)) →
    ensures (SteemApi.profile_account p) w Q).
  { intros Q Hok Herr. unfold SteemApi.profile_account, SteemApi.key_at.
    destruct (_ && _); [apply Hok|].
    destruct (page p) as [[]|]; try apply Hok.
    destruct (key p) as [[k0 k1]|]; [apply Hok|apply Herr]. }
  apply Hacc; [|by intros e a [=]]. intros a. cbv beta iota.
  destruct (ssr && Js.truthy a); [|by apply ensures_ret].
  timed_call Hw.
  destruct d as [pr|]; [destruct (Js.truthy (profile_name pr))|];
    by apply ensures_ret.
Qed.

Lemma balanced_append_topics ssr st :
  balanced ∅ (SteemApi.append_topics true ambient api_call ssr (Some id) st).
Proof.
  apply balanced_ensures. intros w Hw.
  unfold SteemApi.append_topics.
  destruct ssr; [|by apply ensures_ret].
  timed_call Hw. by apply ensures_ret.
Qed.

Lemma balanced_clean st :
  balanced ∅ (SteemApi.clean true ambient stateCleaner (Some id) st).
Proof.
  apply balanced_ensures. intros w Hw. unfold SteemApi.clean.
  apply ensures_bind, (ensures_start_id ambient id id_given).
  intros w1 t Hreg1. rewrite Hw in Hreg1.
  apply ensures_bind, (ensures_stop_id ambient id id_given).
  - rewrite Hreg1. rewrite lookup_insert_ne by keys_differ.
    apply lookup_empty.
  - intros w2 Hreg2. rewrite Hreg1 in Hreg2.
    rewrite delete_insert_id in Hreg2 by apply lookup_empty.
    by apply ensures_ret.
Qed.

(** X28: a successful hydration stops every timer it started, unless it
    swallowed a community failure.  With timing on and a request id,
    when [getStateAsync] is started on an empty registry and returns,
    the registry is empty again, provided the community fetch, if one
    was placed, did not fail. *)
Theorem successful_hydration_stops_its_timers url observer ssr w s :
  activeTimers w = ∅ →
  (∀ e, Js.truthy (tag (parsePath url))
        && ifHive (Js.interp (tag (parsePath url))) = true →
        api_call (get_community (Js.interp (tag (parsePath url))) observer)
        ≠ inl e) →
  snd (SteemApi.getStateAsync true ambient api_call ifHive stateCleaner url
         observer ssr (Some id) w) = Ok s →
  activeTimers
    (fst (SteemApi.getStateAsync true ambient api_call ifHive stateCleaner
            url observer ssr (Some id) w)) = ∅.
Proof.
  intros Hw Hcommunity Hs.
  assert (Hb : balanced ∅
            (SteemApi.getStateAsync true ambient api_call ifHive stateCleaner
               url observer ssr (Some id))).
  { unfold SteemApi.getStateAsync. cbv zeta.
    apply balanced_try_catch.
    2:{ intros e w0 a. by rewrite on_error_result. }
    apply balanced_bind.
    { apply balanced_ensures. intros w0 Hw0.
      apply ensures_emit_reg. intros w1 Hw1 a _. congruence. }
    intros _. apply balanced_bind; [apply balanced_load_content|].
    intros st1. apply balanced_bind; [by apply balanced_append_community|].
    intros st2. apply balanced_bind; [apply balanced_load_profile|].
    intros st3. apply balanced_bind; [apply balanced_append_topics|].
    intros st4. apply balanced_clean. }
  by eapply Hb.
Qed.

End Balance.

Lemma successful_hydration_stops_its_timers_sample :
  ∃ s,
    snd (SteemApi.getStateAsync true sample_ambient backend_up sample_ifHive
           sample_cleaner "trending/hive-123" None true (Some "req-1") boot)
    = Ok s
    ∧ activeTimers
        (fst (SteemApi.getStateAsync true sample_ambient backend_up
                sample_ifHive sample_cleaner "trending/hive-123" None true
                (Some "req-1") boot))
      = ∅.
Proof.
  eexists. split; [vm_compute; reflexivity|].
  eapply (successful_hydration_stops_its_timers sample_ambient backend_up
            sample_ifHive sample_cleaner "req-1" ltac:(done)
            "trending/hive-123" None true boot);
    [reflexivity|by intros e _|vm_compute; reflexivity].
Defined.

(** * Clearing the registry *)

Section Clearing.
Variable ambient : nat → Reading.

(** X29: [clearAllTimers] forgets the open spans without ending them.  It
    empties the registry, so the active count is 0, and writes nothing to
    the console; a stop that comes afterwards, for whatever label and
    request id, finds nothing: it never throws, leaves the registry
    empty and writes one warning, which names the label derived from the
    request id when there is one. *)
Theorem stop_after_clear_warns label r w :
  let w1 := fst (TimingUtils.clearAllTimers w) in
  active_count w1 = Ok 0
  ∧ console w1 = console w
  ∧ rpc_resets w1 = rpc_resets w
  ∧ ∃ w2 tok,
      TimingUtils.safeConsoleTimeEnd true ambient label r w1 = (w2, Ok tt)
      ∧ activeTimers w2 = ∅
      ∧ console w2 = console_warn_timer tok :: console w
      ∧ (Js.truthy r = true → tok = label +:+ "_" +:+ Js.interp r).
Proof.
  cbv zeta. unfold TimingUtils.clearAllTimers. cbn [fst].
  split; [reflexivity|]. split; [reflexivity|]. split; [reflexivity|].
  unfold TimingUtils.safeConsoleTimeEnd, bind, TimingUtils.timers_has.
  cbv beta iota. cbn [activeTimers].
  rewrite bool_decide_eq_false_2
    by (rewrite lookup_empty; by intros [? ?]).
  unfold TimingUtils.generateUniqueLabel.
  destruct (Js.truthy r).
  - unfold ret. cbv beta iota. cbn [activeTimers].
    rewrite bool_decide_eq_false_2
      by (rewrite lookup_empty; by intros [? ?]).
    unfold emit. do 2 eexists. split; [reflexivity|]. by repeat split.
  - unfold bind, TimingUtils.read_ambient, ret. cbv beta iota.
    cbn [activeTimers].
    rewrite bool_decide_eq_false_2
      by (rewrite lookup_empty; by intros [? ?]).
    unfold emit. do 2 eexists. split; [reflexivity|].
    split; [reflexivity|]. split; [reflexivity|]. done.
Qed.

End Clearing.
